(** * Promiventerator: a shallow embedding of [src/src/index.ts]

    The class [Promiventerator] is a Promise subclass that also is an event
    emitter and an async iterable.  The development models one instance as an
    explicit state [St] together with the JavaScript machinery the class
    relies on:
    - the instance fields ([isDone], [value], [listeners], [iterators],
      [eventHistory], [endPromise]);
    - the heap cells captured by each iterator closure ([queue],
      [resolveNext]);
    - the heap of listener [Set] objects, shared between the [listeners] map
      and the local variables of [emit] (JS [Set] iteration visits entries
      appended during the loop and skips deleted ones, so a [Set] is a list
      of slots, a deleted slot being [None]);
    - the microtask queue, as far as [Promise.race] in [next] needs it: each
      race is a record that is settled by the first of its reaction jobs to
      run.

    Event names are strings, payloads and results are [nat]; JavaScript's
    [undefined] is [None]. *)

From Stdlib Require Import List Arith Lia.
From stdpp Require Import base gmap strings list.
Import ListNotations.

(** ** Data model *)

Definition Val := nat.

(** [eventData]: [[eventName]] or [[eventName, data]]. *)
Definition Ev : Type := (string * option Val)%type.

(** The value an iterator result promise settles with:
    [{ value, done: false }] or [{ value, done: true }]. *)
Inductive Result :=
| RYield (e : Ev)
| RDone (v : option Val).

(** State of the native promise underlying [super(...)]. *)
Inductive PState :=
| Pending
| Fulfilled (v : Val)
| Rejected (err : Val).

(** A listener record [{ fn, once }]; [l_id] is the identity of the record
    object, [l_fn] the identity of the callback. *)
Record Listener := mkListener { l_id : nat; l_fn : nat; l_once : bool }.

(** The two closure cells of one iterator: [queue] and [resolveNext]
    ([Some r]: the resolver of the promise raced in pending [next] [r]). *)
Record Iter := mkIter { it_queue : list Ev; it_next : option nat }.

(** The promise returned by one [Promise.race] call in [next]. *)
Record Race := mkRace { r_owner : nat; r_settled : option Result }.

(** A microtask: a reaction that settles race [r] with [res]. *)
Inductive Job := JSettle (r : nat) (res : Result).

(** What a listener callback does when invoked: its synchronous calls on the
    instance, then how it returns.  [RetAsync c] returns a promise whose
    settlement is [c]: [Some (t, true)] fulfils at time [t],
    [Some (t, false)] rejects at time [t], [None] never settles. *)
Inductive Cmd :=
| CEmit (k : string) (d : option Val)
| COn (k : string) (f : nat)
| COnce (k : string) (f : nat)
| COff (k : string) (f : nat).

Definition Completion : Type := option (nat * bool).

Inductive Ret :=
| RetSync
| RetAsync (c : Completion)
| RetThrow.

Record Body := mkBody { b_cmds : list Cmd; b_ret : Ret }.

(** How the synchronous part of [emit] ends: a listener threw (the async
    function rejects), or the loop finished with the collected [promises].
    [OFuel] only marks that the model's recursion bound was exhausted. *)
Inductive Outcome :=
| OThrown
| OCollected (ps : list Completion)
| OFuel.

Record St := mkSt {
  isDone : bool;
  value : option Val;
  native : PState;
  endP : option (option Val);
  endWaiters : list nat;
  lmap : gmap string nat;
  sets : gmap nat (list (option Listener));
  fresh : nat;
  iters : gmap nat Iter;
  active : list nat;
  history : list Ev;
  races : gmap nat Race;
  jobs : list Job;
  outs : list (nat * Result);
  calls : list (nat * option Val)
}.

Definition set_isDone (x : bool) (s : St) : St :=
  {| isDone := x; value := value s; native := native s; endP := endP s; endWaiters := endWaiters s; lmap := lmap s; sets := sets s; fresh := fresh s; iters := iters s; active := active s; history := history s; races := races s; jobs := jobs s; outs := outs s; calls := calls s |}.
Definition set_value (x : option Val) (s : St) : St :=
  {| isDone := isDone s; value := x; native := native s; endP := endP s; endWaiters := endWaiters s; lmap := lmap s; sets := sets s; fresh := fresh s; iters := iters s; active := active s; history := history s; races := races s; jobs := jobs s; outs := outs s; calls := calls s |}.
Definition set_native (x : PState) (s : St) : St :=
  {| isDone := isDone s; value := value s; native := x; endP := endP s; endWaiters := endWaiters s; lmap := lmap s; sets := sets s; fresh := fresh s; iters := iters s; active := active s; history := history s; races := races s; jobs := jobs s; outs := outs s; calls := calls s |}.
Definition set_endP (x : option (option Val)) (s : St) : St :=
  {| isDone := isDone s; value := value s; native := native s; endP := x; endWaiters := endWaiters s; lmap := lmap s; sets := sets s; fresh := fresh s; iters := iters s; active := active s; history := history s; races := races s; jobs := jobs s; outs := outs s; calls := calls s |}.
Definition set_endWaiters (x : list nat) (s : St) : St :=
  {| isDone := isDone s; value := value s; native := native s; endP := endP s; endWaiters := x; lmap := lmap s; sets := sets s; fresh := fresh s; iters := iters s; active := active s; history := history s; races := races s; jobs := jobs s; outs := outs s; calls := calls s |}.
Definition set_lmap (x : gmap string nat) (s : St) : St :=
  {| isDone := isDone s; value := value s; native := native s; endP := endP s; endWaiters := endWaiters s; lmap := x; sets := sets s; fresh := fresh s; iters := iters s; active := active s; history := history s; races := races s; jobs := jobs s; outs := outs s; calls := calls s |}.
Definition set_sets (x : gmap nat (list (option Listener))) (s : St) : St :=
  {| isDone := isDone s; value := value s; native := native s; endP := endP s; endWaiters := endWaiters s; lmap := lmap s; sets := x; fresh := fresh s; iters := iters s; active := active s; history := history s; races := races s; jobs := jobs s; outs := outs s; calls := calls s |}.
Definition set_fresh (x : nat) (s : St) : St :=
  {| isDone := isDone s; value := value s; native := native s; endP := endP s; endWaiters := endWaiters s; lmap := lmap s; sets := sets s; fresh := x; iters := iters s; active := active s; history := history s; races := races s; jobs := jobs s; outs := outs s; calls := calls s |}.
Definition set_iters (x : gmap nat Iter) (s : St) : St :=
  {| isDone := isDone s; value := value s; native := native s; endP := endP s; endWaiters := endWaiters s; lmap := lmap s; sets := sets s; fresh := fresh s; iters := x; active := active s; history := history s; races := races s; jobs := jobs s; outs := outs s; calls := calls s |}.
Definition set_active (x : list nat) (s : St) : St :=
  {| isDone := isDone s; value := value s; native := native s; endP := endP s; endWaiters := endWaiters s; lmap := lmap s; sets := sets s; fresh := fresh s; iters := iters s; active := x; history := history s; races := races s; jobs := jobs s; outs := outs s; calls := calls s |}.
Definition set_history (x : list Ev) (s : St) : St :=
  {| isDone := isDone s; value := value s; native := native s; endP := endP s; endWaiters := endWaiters s; lmap := lmap s; sets := sets s; fresh := fresh s; iters := iters s; active := active s; history := x; races := races s; jobs := jobs s; outs := outs s; calls := calls s |}.
Definition set_races (x : gmap nat Race) (s : St) : St :=
  {| isDone := isDone s; value := value s; native := native s; endP := endP s; endWaiters := endWaiters s; lmap := lmap s; sets := sets s; fresh := fresh s; iters := iters s; active := active s; history := history s; races := x; jobs := jobs s; outs := outs s; calls := calls s |}.
Definition set_jobs (x : list Job) (s : St) : St :=
  {| isDone := isDone s; value := value s; native := native s; endP := endP s; endWaiters := endWaiters s; lmap := lmap s; sets := sets s; fresh := fresh s; iters := iters s; active := active s; history := history s; races := races s; jobs := x; outs := outs s; calls := calls s |}.
Definition set_outs (x : list (nat * Result)) (s : St) : St :=
  {| isDone := isDone s; value := value s; native := native s; endP := endP s; endWaiters := endWaiters s; lmap := lmap s; sets := sets s; fresh := fresh s; iters := iters s; active := active s; history := history s; races := races s; jobs := jobs s; outs := x; calls := calls s |}.
Definition set_calls (x : list (nat * option Val)) (s : St) : St :=
  {| isDone := isDone s; value := value s; native := native s; endP := endP s; endWaiters := endWaiters s; lmap := lmap s; sets := sets s; fresh := fresh s; iters := iters s; active := active s; history := history s; races := races s; jobs := jobs s; outs := outs s; calls := x |}.

Definition init : St :=
  {| isDone := false; value := None; native := Pending; endP := None;
     endWaiters := []; lmap := ∅; sets := ∅; fresh := 0; iters := ∅;
     active := []; history := []; races := ∅; jobs := []; outs := [];
     calls := [] |}.

(** ** Listener registry: [getListeners], [on], [once], [off] *)

Fixpoint live_count (l : list (option Listener)) : nat :=
  match l with
  | [] => 0
  | Some _ :: l' => S (live_count l')
  | None :: l' => live_count l'
  end.

Definition entries_of (sid : nat) (s : St) : list (option Listener) :=
  default [] (sets s !! sid).

Definition getListeners (k : string) (s : St) : St * nat :=
  match lmap s !! k with
  | Some sid => (s, sid)
  | None =>
      let sid := fresh s in
      (set_fresh (S sid) (set_sets (<[sid := []]> (sets s))
         (set_lmap (<[k := sid]> (lmap s)) s)), sid)
  end.

Definition add_listener (k : string) (f : nat) (once : bool) (s : St) : St :=
  let '(s1, sid) := getListeners k s in
  let lid := fresh s1 in
  set_fresh (S lid)
    (set_sets (<[sid := entries_of sid s1 ++ [Some (mkListener lid f once)]]> (sets s1)) s1).

Definition on (k : string) (f : nat) (s : St) : St := add_listener k f false s.
Definition once (k : string) (f : nat) (s : St) : St := add_listener k f true s.

Definition off (k : string) (f : nat) (s : St) : St :=
  let '(s1, sid) := getListeners k s in
  let entries :=
    map (fun o => match o with
                  | Some x => if l_fn x =? f then None else Some x
                  | None => None
                  end) (entries_of sid s1) in
  let s2 := set_sets (<[sid := entries]> (sets s1)) s1 in
  if live_count entries =? 0 then set_lmap (delete k (lmap s2)) s2 else s2.

(** Deleting record [lid] from a slot list. *)
Definition del_slot (lid : nat) (o : option Listener) : option Listener :=
  match o with
  | Some x => if l_id x =? lid then None else Some x
  | None => None
  end.

(** [listeners.delete(listener)] on the [Set] object [sid]. *)
Definition del_listener (sid lid : nat) (s : St) : St :=
  set_sets (<[sid := map (del_slot lid) (entries_of sid s)]> (sets s)) s.

(** ** Iterators: [push], [done], [next], [return] *)

(** [iterator.push(value)]. *)
Definition push (ev : Ev) (i : nat) (s : St) : St :=
  match iters s !! i with
  | Some it =>
      match it_next it with
      | Some r =>
          set_iters (<[i := mkIter (it_queue it) None]> (iters s))
            (set_jobs (jobs s ++ [JSettle r (RYield ev)]) s)
      | None => set_iters (<[i := mkIter (it_queue it ++ [ev]) None]> (iters s)) s
      end
  | None => s
  end.

(** [iterator.done(value)]. *)
Definition done_it (i : nat) (v : option Val) (s : St) : St :=
  match iters s !! i with
  | Some it =>
      match it_next it with
      | Some r =>
          set_iters (<[i := mkIter (it_queue it) None]> (iters s))
            (set_jobs (jobs s ++ [JSettle r (RDone v)]) s)
      | None => s
      end
  | None => s
  end.

(** The first lines of [emit]: append to [eventHistory], then push to every
    iterator of [this.iterators], in insertion order. *)
Definition deliver (ev : Ev) (s : St) : St :=
  fold_left (fun s i => push ev i s) (active s) (set_history (history s ++ [ev]) s).

(** [this.endResolver({ value: x, done: true })]: resolving [endPromise]
    the first time queues the reactions of the races subscribed to it. *)
Definition end_resolve (x : option Val) (s : St) : St :=
  match endP s with
  | Some _ => s
  | None =>
      set_jobs (jobs s ++ map (fun r => JSettle r (RDone x)) (endWaiters s))
        (set_endWaiters [] (set_endP (Some x) s))
  end.

Definition settle_native (p : PState) (s : St) : St :=
  match native s with
  | Pending => set_native p s
  | _ => s
  end.

(** The [resolve] handed to the executor by the constructor. *)
Definition resolve_op (w : Val) (s : St) : St :=
  settle_native (Fulfilled w)
    (set_value (Some w) (set_isDone true (end_resolve (Some w) s))).

(** The [reject] handed to the executor: the native one, unwrapped. *)
Definition reject_op (e : Val) (s : St) : St := settle_native (Rejected e) s.

(** [this[Symbol.asyncIterator]()]: returns the new iterator's id. *)
Definition create_op (s : St) : St * nat :=
  let i := fresh s in
  (set_fresh (S i) (set_active (active s ++ [i])
     (set_iters (<[i := mkIter (history s) None]> (iters s)) s)), i).

(** [next()]: shift the queue, or race [endPromise] against a fresh promise
    whose resolver is stored in [resolveNext]. *)
Definition next_op (i : nat) (s : St) : St :=
  match iters s !! i with
  | None => s
  | Some it =>
      match it_queue it with
      | e :: q =>
          set_outs (outs s ++ [(i, RYield e)])
            (set_iters (<[i := mkIter q (it_next it)]> (iters s)) s)
      | [] =>
          let r := fresh s in
          let s1 := set_fresh (S r) (set_races (<[r := mkRace i None]> (races s))
                      (set_iters (<[i := mkIter [] (Some r)]> (iters s)) s)) in
          match endP s1 with
          | Some x => set_jobs (jobs s1 ++ [JSettle r (RDone x)]) s1
          | None => set_endWaiters (endWaiters s1 ++ [r]) s1
          end
      end
  end.

Definition remove_id (i : nat) (l : list nat) : list nat :=
  List.filter (fun j => negb (j =? i)) l.

(** [return(value)]. *)
Definition return_op (i : nat) (v : option Val) (s : St) : St :=
  match iters s !! i with
  | None => s
  | Some _ =>
      let s1 := done_it i v (set_active (remove_id i (active s)) s) in
      match v with
      | Some w => if negb (isDone s1) then end_resolve (Some w) s1 else s1
      | None => s1
      end
  end.

(** One microtask: the first queued reaction settles its race unless the
    race is already settled. *)
Definition run_job (s : St) : St :=
  match jobs s with
  | [] => s
  | JSettle r res :: js =>
      let s1 := set_jobs js s in
      match races s1 !! r with
      | Some rc =>
          match r_settled rc with
          | None =>
              set_outs (outs s1 ++ [(r_owner rc, res)])
                (set_races (<[r := mkRace (r_owner rc) (Some res)]> (races s1)) s1)
          | Some _ => s1
          end
      | None => s1
      end
  end.

(** ** [emit] *)

Section Emit.

(** The behaviour of each callback, by callback identity and argument. *)
Variable beh : nat -> option Val -> Body.

(** The synchronous part of [emit] (up to [await Promise.all]).  [fuel]
    bounds the nesting of emissions made by listeners and the length of
    the dispatch loop. *)
Fixpoint emit_sync (fuel : nat) (k : string) (d : option Val) (s : St)
  {struct fuel} : St * Outcome :=
  match fuel with
  | O => (s, OFuel)
  | S f =>
      let s1 := deliver (k, d) s in
      let '(s2, sid) := getListeners k s1 in
      dispatch f k d sid 0 [] s2
  end
(** [for (const listener of listeners) { ... }], then the size check. *)
with dispatch (fuel : nat) (k : string) (d : option Val) (sid idx : nat)
  (ps : list Completion) (s : St) {struct fuel} : St * Outcome :=
  match fuel with
  | O => (s, OFuel)
  | S f =>
      match nth_error (entries_of sid s) idx with
      | None =>
          let s' := if live_count (entries_of sid s) =? 0
                    then set_lmap (delete k (lmap s)) s else s in
          (s', OCollected ps)
      | Some None => dispatch f k d sid (S idx) ps s
      | Some (Some l) =>
          let b := beh (l_fn l) d in
          let s1 := run_cmds f (b_cmds b) (set_calls (calls s ++ [(l_fn l, d)]) s) in
          let after (c : Completion) :=
            let s2 := if l_once l then del_listener sid (l_id l) s1 else s1 in
            dispatch f k d sid (S idx) (ps ++ [c]) s2 in
          match b_ret b with
          | RetThrow => (s1, OThrown)
          | RetSync => after (Some (0, true))
          | RetAsync c => after c
          end
      end
  end
(** The synchronous calls a listener makes on the instance. *)
with run_cmds (fuel : nat) (cs : list Cmd) (s : St) {struct fuel} : St :=
  match fuel with
  | O => s
  | S f =>
      match cs with
      | [] => s
      | CEmit k d :: cs' => run_cmds f cs' (fst (emit_sync f k d s))
      | COn k g :: cs' => run_cmds f cs' (on k g s)
      | COnce k g :: cs' => run_cmds f cs' (once k g s)
      | COff k g :: cs' => run_cmds f cs' (off k g s)
      end
  end.

End Emit.

(** [Promise.all(promises)]: rejects at the first rejection, fulfils when
    every promise has fulfilled, stays pending otherwise. *)
Definition rej_times (ps : list Completion) : list nat :=
  flat_map (fun c => match c with Some (t, false) => [t] | _ => [] end) ps.

Definition ful_times (ps : list Completion) : list nat :=
  flat_map (fun c => match c with Some (t, true) => [t] | _ => [] end) ps.

Definition all_settle (ps : list Completion) : option (nat * bool) :=
  match rej_times ps with
  | t :: ts => Some (fold_left Nat.min ts t, false)
  | [] => if length (ful_times ps) =? length ps
          then Some (list_max (ful_times ps), true) else None
  end.

(** How the promise returned by [emit] settles: fulfilled at time [t] with
    [promises.length > 0], rejected at time [t], or never. *)
Inductive EmitRes :=
| EFulfilled (t : nat) (b : bool)
| ERejected (t : nat)
| EPending
| EFuel.

Definition emit_promise (o : Outcome) : EmitRes :=
  match o with
  | OThrown => ERejected 0
  | OFuel => EFuel
  | OCollected ps =>
      match all_settle ps with
      | Some (t, true) => EFulfilled t (0 <? length ps)
      | Some (t, false) => ERejected t
      | None => EPending
      end
  end.

(** ** Runs *)

Inductive Action :=
| AEmit (k : string) (d : option Val)
| AOn (k : string) (f : nat)
| AOnce (k : string) (f : nat)
| AOff (k : string) (f : nat)
| AResolve (w : Val)
| AReject (e : Val)
| ACreate
| ANext (i : nat)
| AReturn (i : nat) (v : option Val)
| AJob.

Definition step (beh : nat -> option Val -> Body) (fuel : nat) (a : Action) (s : St) : St :=
  match a with
  | AEmit k d => fst (emit_sync beh fuel k d s)
  | AOn k f => on k f s
  | AOnce k f => once k f s
  | AOff k f => off k f s
  | AResolve w => resolve_op w s
  | AReject e => reject_op e s
  | ACreate => fst (create_op s)
  | ANext i => next_op i s
  | AReturn i v => return_op i v s
  | AJob => run_job s
  end.

Fixpoint exec (beh : nat -> option Val -> Body) (fuel : nat) (sched : list Action) (s : St) : St :=
  match sched with
  | [] => s
  | a :: sched' => exec beh fuel sched' (step beh fuel a s)
  end.

(** What the traversal [i] has received so far, in order. *)
Definition obs (i : nat) (o : list (nat * Result)) : list Result :=
  map snd (List.filter (fun p => fst p =? i) o).

(** The awaiters of the instance observe the native promise. *)
Definition await_outcome (s : St) : PState := native s.

(** ** Listener behaviours used by the concrete runs *)

(** Every listener returns at once. *)
Definition quiet : nat -> option Val -> Body := fun _ _ => mkBody [] RetSync.

(** Listener [1] re-emits ['e'] with [2] when called with [1]. *)
Definition beh_reemit : nat -> option Val -> Body :=
  fun f d => match f, d with
             | 1, Some 1 => mkBody [CEmit "e" (Some 2)] RetSync
             | _, _ => mkBody [] RetSync
             end.


(** Every listener throws synchronously. *)
Definition beh_throw : nat -> option Val -> Body := fun _ _ => mkBody [] RetThrow.

(** ** What listener code can do to the traversal side of the state *)

(** [s'] extends [s]: same registry, history and reaction queue only
    appended to, every iterator's queue only appended to, and a cleared
    [resolveNext] stays cleared. *)
Definition grows (s s' : St) : Prop :=
  active s' = active s /\
  (exists h, history s' = history s ++ h) /\
  (exists js, jobs s' = jobs s ++ js) /\
  (forall i it, iters s !! i = Some it ->
     exists q n, iters s' !! i = Some (mkIter (it_queue it ++ q) n) /\
                 (it_next it = None -> n = None)).

(** ** Delivery of an emitted record to the registered traversals *)

(** [ev] reached traversal [i], whose cells were [it] before: appended to
    its queue, or handed to the pending [next] through [resolveNext]. *)
Definition delivered_one (ev : Ev) (it : Iter) (s' : St) (i : nat) : Prop :=
  match it_next it with
  | None => exists q, iters s' !! i = Some (mkIter (it_queue it ++ ev :: q) None)
  | Some r => In (JSettle r (RYield ev)) (jobs s') /\
              exists q, iters s' !! i = Some (mkIter (it_queue it ++ q) None)
  end.

Definition delivered (ev : Ev) (s s' : St) : Prop :=
  forall i it, In i (active s) -> iters s !! i = Some it -> delivered_one ev it s' i.

(** The listener [Set] the [listeners] map holds for [k], as a slot list. *)
Definition listeners_at (k : string) (s : St) : list (option Listener) :=
  match lmap s !! k with
  | Some sid => entries_of sid s
  | None => []
  end.


(** The live records of a slot list, in insertion order. *)
Definition live_of (l : list (option Listener)) : list Listener :=
  flat_map (fun o => match o with Some x => [x] | None => [] end) l.


(** ** C1: traversals over the event history *)

(** The first reaction queued for race [r]: the one that will settle it. *)
Fixpoint first_res (r : nat) (js : list Job) : option Result :=
  match js with
  | [] => None
  | JSettle r' res :: js' => if r' =? r then Some res else first_res r js'
  end.












(** Steps that only touch the listener registry and the bookkeeping fields. *)
Definition reg (s s' : St) : Prop :=
  native s' = native s /\ endP s' = endP s /\ endWaiters s' = endWaiters s /\
  fresh s <= fresh s' /\ iters s' = iters s /\ active s' = active s /\
  history s' = history s /\ races s' = races s /\ jobs s' = jobs s /\ outs s' = outs s.




(** ** The listener registry along a run *)

(** The bookkeeping the registry keeps: every [Set] the [listeners] map
    holds was allocated before [fresh], no two event names share a [Set],
    and the records of each [Set] have distinct identities, all allocated
    before [fresh]. *)
Record RegWF (s : St) : Prop := {
  rw_map : forall k sid, lmap s !! k = Some sid -> sid < fresh s;
  rw_inj : forall k1 k2 sid, lmap s !! k1 = Some sid -> lmap s !! k2 = Some sid -> k1 = k2;
  rw_ids : forall sid l x, sets s !! sid = Some l -> In (Some x) l -> l_id x < fresh s;
  rw_nodup : forall sid l, sets s !! sid = Some l -> List.NoDup (map l_id (live_of l))
}.

(** The records one dispatch loop of [emit] leaves in the [Set] it runs
    over, when no listener calls methods of the instance: a [once] record is
    deleted after its call returns; a listener that throws ends the loop, so
    it and the records after it stay. *)
Fixpoint kept (beh : nat -> option Val -> Body) (d : option Val) (ls : list Listener) : list Listener :=
  match ls with
  | [] => []
  | l :: ls' =>
      match b_ret (beh (l_fn l) d) with
      | RetThrow => ls
      | _ => if l_once l then kept beh d ls' else l :: kept beh d ls'
      end
  end.

(** Blanking the slots whose record fails [p]. *)
Definition filt (p : Listener -> bool) (o : option Listener) : option Listener :=
  match o with Some x => if p x then Some x else None | None => None end.

Lemma live_of_filt (p : Listener -> bool) (l : list (option Listener)) :
  live_of (map (filt p) l) = List.filter p (live_of l).
Proof.
  induction l as [|[x|] l IH]; simpl; [reflexivity| |exact IH].
  destruct (p x); simpl; rewrite IH; reflexivity.
Qed.

(** Iterator records are allocated below [fresh]. *)
Definition iters_below (s : St) : Prop := forall j it, iters s !! j = Some it -> j < fresh s.


(** A traversal that is no longer registered and has no pending [next]. *)
Definition detached (i : nat) (q : list Ev) (t : St) : Prop :=
  iters t !! i = Some (mkIter q None) /\ ~ In i (active t) /\ i < fresh t.

(** Runs used by the witnesses below. *)
Definition once_on_run : list Action := [AOnce "a" 1; AOn "a" 2].
Definition on_run : list Action := [AOn "a" 2].
Definition create_run : list Action := [ACreate].

(** ** Generic lemmas *)

(** Reduce field accesses on updated states. *)
Ltac st_red :=
  cbn [set_isDone set_value set_native set_endP set_endWaiters set_lmap set_sets
       set_fresh set_iters set_active set_history set_races set_jobs set_outs set_calls
       isDone value native endP endWaiters lmap sets fresh iters active history
       races jobs outs calls it_queue it_next r_owner r_settled l_id l_fn l_once fst snd] in *.

Lemma obs_app (i : nat) (o1 o2 : list (nat * Result)) :
  obs i (o1 ++ o2) = obs i o1 ++ obs i o2.
Proof. unfold obs. rewrite List.filter_app, map_app. reflexivity. Qed.

Lemma obs_one (i j : nat) (r : Result) :
  obs i [(j, r)] = if j =? i then [r] else [].
Proof. unfold obs. simpl. destruct (j =? i); reflexivity. Qed.

Lemma obs_other (i j : nat) (o : list (nat * Result)) (r : Result) :
  j <> i -> obs i (o ++ [(j, r)]) = obs i o.
Proof.
  intros Hne. rewrite obs_app, obs_one.
  destruct (Nat.eqb_spec j i); [congruence | apply app_nil_r].
Qed.

(** ** C10: a traversal's [next] touches only that traversal *)

(** C10: calling [next()] on traversal [i] leaves the queue and
    [resolveNext] cells of every other traversal [j], the shared history and
    the registry unchanged; it adds outputs and queued reactions for [i]'s
    own races only, so what any other traversal has received and will receive
    is not affected. *)
Theorem next_op_frame (i j : nat) (s : St) :
  j <> i -> races s !! fresh s = None ->
  let s' := next_op i s in
  iters s' !! j = iters s !! j /\
  history s' = history s /\
  active s' = active s /\
  obs j (outs s') = obs j (outs s) /\
  (forall r rc, races s !! r = Some rc -> races s' !! r = Some rc) /\
  (exists js, jobs s' = jobs s ++ js /\
     forall r res, In (JSettle r res) js -> exists st, races s' !! r = Some (mkRace i st)).
Proof.
  intros Hne Hfr s'. subst s'. unfold next_op.
  destruct (iters s !! i) as [it|] eqn:Ei.
  2:{ repeat split; auto. exists []. rewrite app_nil_r. split; [reflexivity|simpl; tauto]. }
  destruct (it_queue it) as [|e q] eqn:Eq.
  - assert (Hr : forall r rc, races s !! r = Some rc ->
              (<[fresh s := mkRace i None]> (races s)) !! r = Some rc).
    { intros r rc H. rewrite lookup_insert_ne; [exact H|]. intros Heq. rewrite <- Heq in H. congruence. }
    st_red. destruct (endP s) as [x|] eqn:Ee; st_red.
    + rewrite lookup_insert_ne by congruence.
      repeat split; auto.
      exists [JSettle (fresh s) (RDone x)]. split; [reflexivity|].
      intros r res [H|[]]. inversion H; subst. exists None. rewrite lookup_insert_eq. reflexivity.
    + rewrite lookup_insert_ne by congruence.
      repeat split; auto.
      exists []. rewrite app_nil_r. split; [reflexivity|simpl; tauto].
  - st_red. rewrite lookup_insert_ne by congruence.
    repeat split; auto.
    + apply obs_other. congruence.
    + exists []. rewrite app_nil_r. split; [reflexivity|simpl; tauto].
Qed.

(** ** Listener code only extends the traversal side of the state *)

Lemma grows_refl (s : St) : grows s s.
Proof.
  repeat split.
  - exists []. rewrite app_nil_r. reflexivity.
  - exists []. rewrite app_nil_r. reflexivity.
  - intros i it H. exists [], (it_next it). rewrite app_nil_r, H.
    destruct it; split; auto.
Qed.

Lemma grows_trans (s1 s2 s3 : St) : grows s1 s2 -> grows s2 s3 -> grows s1 s3.
Proof.
  intros (A1 & [h1 H1] & [j1 J1] & I1) (A2 & [h2 H2] & [j2 J2] & I2).
  repeat split.
  - congruence.
  - exists (h1 ++ h2). rewrite H2, H1, app_assoc. reflexivity.
  - exists (j1 ++ j2). rewrite J2, J1, app_assoc. reflexivity.
  - intros i it H.
    destruct (I1 i it H) as (q1 & n1 & E1 & N1).
    destruct (I2 i _ E1) as (q2 & n2 & E2 & N2). cbn in *.
    exists (q1 ++ q2), n2. rewrite app_assoc. split; auto.
Qed.

(** A step that leaves the four traversal fields alone. *)
Lemma grows_same (s s' : St) :
  active s' = active s -> history s' = history s -> jobs s' = jobs s ->
  iters s' = iters s -> grows s s'.
Proof.
  intros A H J I. pose proof (grows_refl s) as (A0 & H0 & J0 & I0).
  repeat split; try congruence.
  - rewrite H. exact H0.
  - rewrite J. exact J0.
  - rewrite I. exact I0.
Qed.

Lemma push_grows (ev : Ev) (j : nat) (s : St) : grows s (push ev j s).
Proof.
  unfold push. destruct (iters s !! j) as [it|] eqn:E; [|apply grows_refl].
  destruct (it_next it) as [r|] eqn:En.
  - repeat split; st_red.
    + exists []. rewrite app_nil_r. reflexivity.
    + eexists. reflexivity.
    + intros i it' H. destruct (decide (i = j)) as [->|Hne].
      * rewrite lookup_insert_eq. rewrite E in H. inversion H; subst.
        exists [], None. rewrite app_nil_r. split; auto.
      * rewrite lookup_insert_ne by congruence. rewrite H.
        exists [], (it_next it'). rewrite app_nil_r. destruct it'; split; auto.
  - repeat split; st_red.
    + exists []. rewrite app_nil_r. reflexivity.
    + exists []. rewrite app_nil_r. reflexivity.
    + intros i it' H. destruct (decide (i = j)) as [->|Hne].
      * rewrite lookup_insert_eq. rewrite E in H. inversion H; subst.
        exists [ev], None. split; auto.
      * rewrite lookup_insert_ne by congruence. rewrite H.
        exists [], (it_next it'). rewrite app_nil_r. destruct it'; split; auto.
Qed.

Lemma fold_push_grows (ev : Ev) (l : list nat) (s : St) :
  grows s (fold_left (fun s i => push ev i s) l s).
Proof.
  revert s. induction l as [|a l IH]; intros s; simpl; [apply grows_refl|].
  eapply grows_trans; [apply push_grows|apply IH].
Qed.

Lemma deliver_grows (ev : Ev) (s : St) : grows s (deliver ev s).
Proof.
  unfold deliver. eapply grows_trans; [|apply fold_push_grows].
  repeat split; st_red; auto.
  - eexists. reflexivity.
  - exists []. rewrite app_nil_r. reflexivity.
  - intros i it H. exists [], (it_next it). rewrite app_nil_r, H. destruct it; auto.
Qed.

Lemma getListeners_grows (k : string) (s : St) : grows s (fst (getListeners k s)).
Proof.
  unfold getListeners. destruct (lmap s !! k); [apply grows_refl|].
  apply grows_same; reflexivity.
Qed.

Lemma add_listener_grows (k : string) (f : nat) (b : bool) (s : St) :
  grows s (add_listener k f b s).
Proof.
  unfold add_listener. pose proof (getListeners_grows k s) as G.
  destruct (getListeners k s) as [s1 sid]. eapply grows_trans; [exact G|].
  apply grows_same; reflexivity.
Qed.

Lemma off_grows (k : string) (f : nat) (s : St) : grows s (off k f s).
Proof.
  unfold off. pose proof (getListeners_grows k s) as G.
  destruct (getListeners k s) as [s1 sid]. eapply grows_trans; [exact G|].
  match goal with |- context [if ?c then _ else _] => destruct c end;
    apply grows_same; reflexivity.
Qed.

Lemma del_listener_grows (sid lid : nat) (s : St) : grows s (del_listener sid lid s).
Proof. apply grows_same; reflexivity. Qed.

Section EmitGrows.

Variable beh : nat -> option Val -> Body.

Lemma emit_grows_all (fuel : nat) :
  (forall k d s, grows s (fst (emit_sync beh fuel k d s))) /\
  (forall k d sid idx ps s, grows s (fst (dispatch beh fuel k d sid idx ps s))) /\
  (forall cs s, grows s (run_cmds beh fuel cs s)).
Proof.
  induction fuel as [|f (IHe & IHd & IHc)].
  { refine (conj _ (conj _ _)); intros; apply grows_refl. }
  refine (conj _ (conj _ _)).
  - intros k d s. simpl.
    pose proof (deliver_grows (k, d) s) as G1.
    pose proof (getListeners_grows k (deliver (k, d) s)) as G2.
    destruct (getListeners k (deliver (k, d) s)) as [s2 sid].
    eapply grows_trans; [exact G1|]. eapply grows_trans; [exact G2|]. apply IHd.
  - intros k d sid idx ps s. simpl.
    destruct (nth_error (entries_of sid s) idx) as [[l|]|].
    + assert (Gc : grows s (run_cmds beh f (b_cmds (beh (l_fn l) d))
                              (set_calls (calls s ++ [(l_fn l, d)]) s))).
      { eapply grows_trans; [|apply IHc]. apply grows_same; reflexivity. }
      destruct (b_ret (beh (l_fn l) d)); simpl; try exact Gc;
        (eapply grows_trans; [exact Gc|]);
        (destruct (l_once l); [eapply grows_trans; [apply del_listener_grows|apply IHd]|apply IHd]).
    + apply IHd.
    + destruct (live_count (entries_of sid s) =? 0); simpl;
        [apply grows_same; reflexivity|apply grows_refl].
  - intros cs s. simpl. destruct cs as [|c cs]; [apply grows_refl|].
    destruct c; (eapply grows_trans; [|apply IHc]).
    + apply IHe.
    + apply add_listener_grows.
    + apply add_listener_grows.
    + apply off_grows.
Qed.

End EmitGrows.


Lemma delivered_one_grows (ev : Ev) (it : Iter) (s1 s2 : St) (i : nat) :
  delivered_one ev it s1 i -> grows s1 s2 -> delivered_one ev it s2 i.
Proof.
  intros D (_ & _ & [js J] & I). unfold delivered_one in *.
  destruct (it_next it) as [r|].
  - destruct D as [Hin [q Hq]]. split.
    + rewrite J. apply in_or_app. left. exact Hin.
    + destruct (I i _ Hq) as (q2 & n & E & N). cbn in *.
      exists (q ++ q2). rewrite E, app_assoc, (N eq_refl). reflexivity.
  - destruct D as [q Hq]. destruct (I i _ Hq) as (q2 & n & E & N). cbn in *.
    exists (q ++ q2). rewrite E, (N eq_refl), <- app_assoc. reflexivity.
Qed.

Lemma push_delivered (ev : Ev) (i : nat) (it : Iter) (t : St) :
  iters t !! i = Some it -> delivered_one ev it (push ev i t) i.
Proof.
  intros E. unfold push, delivered_one. rewrite E.
  destruct (it_next it) as [r|]; st_red.
  - split; [apply in_or_app; right; left; reflexivity|].
    exists []. rewrite app_nil_r, lookup_insert_eq. reflexivity.
  - exists []. rewrite lookup_insert_eq. reflexivity.
Qed.

Lemma push_other (ev : Ev) (j i : nat) (t : St) :
  i <> j -> iters (push ev j t) !! i = iters t !! i.
Proof.
  intros Hne. unfold push. destruct (iters t !! j) as [it|]; [|reflexivity].
  destruct (it_next it); st_red; apply lookup_insert_ne; congruence.
Qed.

Lemma fold_push_delivered (ev : Ev) (l : list nat) (t : St) :
  List.NoDup l -> forall i it, In i l -> iters t !! i = Some it ->
  delivered_one ev it (fold_left (fun s i => push ev i s) l t) i.
Proof.
  revert t. induction l as [|a l IH]; intros t Hnd i it Hin E; [destruct Hin|].
  inversion Hnd as [|? ? Hna Hnd']; subst. simpl.
  destruct Hin as [->|Hin].
  - eapply delivered_one_grows; [apply push_delivered; exact E|apply fold_push_grows].
  - apply IH; auto. rewrite push_other; [exact E|]. intros ->. contradiction.
Qed.

Lemma deliver_delivered (ev : Ev) (s : St) :
  List.NoDup (active s) -> delivered ev s (deliver ev s).
Proof.
  intros Hnd i it Hin E. unfold deliver. apply fold_push_delivered; auto.
Qed.

(** The fields [deliver] does not touch. *)
Lemma fold_push_keep (ev : Ev) (l : list nat) (t : St) :
  let t' := fold_left (fun s i => push ev i s) l t in
  lmap t' = lmap t /\ sets t' = sets t /\ fresh t' = fresh t /\
  history t' = history t /\ calls t' = calls t.
Proof.
  revert t. induction l as [|a l IH]; intros t; simpl; [auto|].
  destruct (IH (push ev a t)) as (A & B & C & D & E).
  rewrite A, B, C, D, E. unfold push.
  destruct (iters t !! a) as [it|]; [destruct (it_next it)|]; st_red; auto.
Qed.

Lemma deliver_keep (ev : Ev) (s : St) :
  lmap (deliver ev s) = lmap s /\ sets (deliver ev s) = sets s /\
  fresh (deliver ev s) = fresh s /\ history (deliver ev s) = history s ++ [ev].
Proof.
  unfold deliver. destruct (fold_push_keep ev (active s) (set_history (history s ++ [ev]) s))
    as (A & B & C & D & _). rewrite A, B, C, D. st_red. auto.
Qed.

Lemma emit_sync_delivers (beh : nat -> option Val -> Body) (fuel : nat) (k : string)
  (d : option Val) (s : St) :
  List.NoDup (active s) -> 0 < fuel ->
  delivered (k, d) s (fst (emit_sync beh fuel k d s)) /\
  exists h, history (fst (emit_sync beh fuel k d s)) = history s ++ (k, d) :: h.
Proof.
  intros Hnd Hf. destruct fuel as [|f]; [lia|]. simpl.
  pose proof (deliver_delivered (k, d) s Hnd) as D.
  pose proof (getListeners_grows k (deliver (k, d) s)) as G.
  destruct (deliver_keep (k, d) s) as (_ & _ & _ & Hh).
  destruct (getListeners k (deliver (k, d) s)) as [s2 sid]. cbn in G.
  pose proof (proj1 (proj2 (emit_grows_all beh f)) k d sid 0 [] s2) as G2.
  pose proof (grows_trans _ _ _ G G2) as G3.
  split.
  - intros i it Hin E. eapply delivered_one_grows; [apply D; eauto|exact G3].
  - destruct G3 as (_ & [h Eh] & _). exists h. rewrite Eh, Hh, <- app_assoc. reflexivity.
Qed.


Lemma live_count_zero (l : list (option Listener)) :
  live_count l = 0 -> Forall (fun o => o = None) l.
Proof.
  induction l as [|[x|] l IH]; simpl; intros H; [constructor|lia|].
  constructor; auto.
Qed.

Lemma skipn_nth_error_cons {A} (l : list A) (n : nat) (x : A) :
  nth_error l n = Some x -> skipn n l = x :: skipn (S n) l.
Proof.
  revert n. induction l as [|a l IH]; intros [|n] H; simpl in *; try discriminate.
  - inversion H; reflexivity.
  - apply IH. exact H.
Qed.

Section DispatchShape.

Variable beh : nat -> option Val -> Body.

(** Over a [Set] whose slots are all deleted, the loop calls nothing. *)
Lemma dispatch_holes (k : string) (d : option Val) (sid : nat) (f idx : nat)
  (ps : list Completion) (s : St) :
  Forall (fun o => o = None) (entries_of sid s) ->
  length (entries_of sid s) - idx < f ->
  snd (dispatch beh f k d sid idx ps s) = OCollected ps /\
  history (fst (dispatch beh f k d sid idx ps s)) = history s.
Proof.
  revert idx. induction f as [|f IH]; intros idx Hall Hlen; [lia|]. simpl.
  destruct (nth_error (entries_of sid s) idx) as [[l|]|] eqn:E.
  - apply nth_error_In in E. rewrite List.Forall_forall in Hall.
    specialize (Hall _ E). discriminate.
  - apply IH; auto. assert (Hs : nth_error (entries_of sid s) idx <> None) by congruence.
    apply nth_error_Some in Hs. lia.
  - destruct (live_count (entries_of sid s) =? 0); auto.
Qed.

Lemma dispatch_keeps_nonempty (k : string) (d : option Val) (sid : nat) (f idx : nat)
  (ps : list Completion) (s : St) :
  ps <> [] -> forall ps', snd (dispatch beh f k d sid idx ps s) = OCollected ps' -> ps' <> [].
Proof.
  revert idx ps s. induction f as [|f IH]; intros idx ps s Hps ps' H; simpl in H; [discriminate|].
  destruct (nth_error (entries_of sid s) idx) as [[l|]|].
  - destruct (b_ret (beh (l_fn l) d)); simpl in H; try discriminate;
      (eapply IH; [|exact H]); intros Hn; apply app_eq_nil in Hn; destruct Hn; discriminate.
  - eapply IH; eauto.
  - destruct (live_count (entries_of sid s) =? 0); simpl in H; inversion H; subst; auto.
Qed.

(** A live slot at or after [idx] is reached, and its call adds to
    [promises] unless it throws. *)
Lemma dispatch_live (k : string) (d : option Val) (sid : nat) (f idx : nat)
  (ps : list Completion) (s : St) :
  0 < live_count (skipn idx (entries_of sid s)) ->
  forall ps', snd (dispatch beh f k d sid idx ps s) = OCollected ps' -> ps' <> [].
Proof.
  revert idx ps s. induction f as [|f IH]; intros idx ps s Hl ps' H; simpl in H; [discriminate|].
  destruct (nth_error (entries_of sid s) idx) as [[l|]|] eqn:E.
  - destruct (b_ret (beh (l_fn l) d)); simpl in H; try discriminate;
      (eapply dispatch_keeps_nonempty; [|exact H]); intros Hn; apply app_eq_nil in Hn;
      destruct Hn; discriminate.
  - eapply IH; [|exact H]. rewrite (skipn_nth_error_cons _ _ _ E) in Hl. exact Hl.
  - apply List.nth_error_None in E. rewrite skipn_all2 in Hl by exact E. simpl in Hl. lia.
Qed.

End DispatchShape.

Lemma fold_push_calls (ev : Ev) (s : St) : calls (deliver ev s) = calls s.
Proof.
  unfold deliver. destruct (fold_push_keep ev (active s) (set_history (history s ++ [ev]) s))
    as (_ & _ & _ & _ & E). rewrite E. reflexivity.
Qed.

(** The state the dispatch loop of [emit] starts from. *)
Lemma emit_sync_unfold (beh : nat -> option Val -> Body) (f : nat) (k : string)
  (d : option Val) (s : St) :
  exists s2 sid,
    getListeners k (deliver (k, d) s) = (s2, sid) /\
    emit_sync beh (S f) k d s = dispatch beh f k d sid 0 [] s2 /\
    history s2 = history s ++ [(k, d)] /\ calls s2 = calls s /\
    grows (deliver (k, d) s) s2 /\
    entries_of sid s2 = listeners_at k s.
Proof.
  destruct (deliver_keep (k, d) s) as (Hl & Hs & Hf & Hh).
  pose proof (getListeners_grows k (deliver (k, d) s)) as G.
  pose proof (fold_push_calls (k, d) s) as Hc.
  change (emit_sync beh (S f) k d s) with
    (let '(s2, sid) := getListeners k (deliver (k, d) s) in dispatch beh f k d sid 0 [] s2).
  unfold getListeners in *. unfold listeners_at. rewrite Hl in *.
  destruct (lmap s !! k) as [sid|] eqn:E.
  - exists (deliver (k, d) s), sid. cbv beta iota.
    refine (conj eq_refl (conj eq_refl (conj Hh (conj Hc (conj (grows_refl _) _))))).
    unfold entries_of. rewrite Hs. reflexivity.
  - eexists _, _. split; [reflexivity|]. cbv beta iota.
    refine (conj eq_refl (conj _ (conj _ (conj G _)))); st_red; auto.
    unfold entries_of. st_red. rewrite lookup_insert_eq. reflexivity.
Qed.

(** ** C8: the boolean of [emit] and the delivery to traversals *)

(** C8: [emit(k, d)] always appends the record to the history and delivers
    it to every registered traversal.  With no listener registered for [k]
    (no live slot in its [Set]) nothing is called, the history grows by
    exactly that record and the returned promise fulfils with [false]; with
    at least one listener registered at dispatch time, whenever the returned
    promise fulfils, it fulfils with [true]. *)
Theorem emit_result_flag (beh : nat -> option Val -> Body) (fuel : nat) (k : string)
  (d : option Val) (s : St) :
  List.NoDup (active s) -> length (listeners_at k s) + 1 < fuel ->
  let r := emit_sync beh fuel k d s in
  delivered (k, d) s (fst r) /\
  (exists h, history (fst r) = history s ++ (k, d) :: h) /\
  (live_count (listeners_at k s) = 0 ->
     history (fst r) = history s ++ [(k, d)] /\ emit_promise (snd r) = EFulfilled 0 false) /\
  (0 < live_count (listeners_at k s) ->
     forall t b, emit_promise (snd r) = EFulfilled t b -> b = true).
Proof.
  intros Hnd Hf r. subst r.
  destruct (emit_sync_delivers beh fuel k d s Hnd ltac:(lia)) as [D H].
  split; [exact D|]. split; [exact H|].
  destruct fuel as [|f]; [lia|].
  destruct (emit_sync_unfold beh f k d s) as (s2 & sid & _ & Hu & Hh & _ & _ & He).
  rewrite Hu. split.
  - intros H0. rewrite <- He in H0.
    destruct (dispatch_holes beh k d sid f 0 [] s2 (live_count_zero _ H0))
      as [Ho Hh2]; [rewrite He; lia|].
    rewrite Ho, Hh2, Hh. split; reflexivity.
  - intros Hpos t b Hp. rewrite <- He in Hpos.
    destruct (snd (dispatch beh f k d sid 0 [] s2)) as [|ps|] eqn:Eo;
      simpl in Hp; try discriminate.
    pose proof (dispatch_live beh k d sid f 0 [] s2 Hpos ps Eo) as Hne.
    destruct (all_settle ps) as [[t' []]|]; inversion Hp; subst.
    destruct ps; [contradiction|reflexivity].
Qed.

(** ** C9: a failing listener does not take the record back *)

(** C9: the dispatch loop, where listeners run, starts from a state in which
    the record is already appended to the history and delivered to every
    registered traversal, and in which no listener has been called yet; when
    the promise of [emit] rejects (a listener threw or its promise
    rejected), the record is still in the history and still delivered. *)
Theorem emit_failure_keeps_record (beh : nat -> option Val -> Body) (f : nat) (k : string)
  (d : option Val) (s : St) :
  List.NoDup (active s) ->
  (exists s2 sid, history s2 = history s ++ [(k, d)] /\ delivered (k, d) s s2 /\
     calls s2 = calls s /\ emit_sync beh (S f) k d s = dispatch beh f k d sid 0 [] s2) /\
  (forall t, emit_promise (snd (emit_sync beh (S f) k d s)) = ERejected t ->
     delivered (k, d) s (fst (emit_sync beh (S f) k d s)) /\
     exists h, history (fst (emit_sync beh (S f) k d s)) = history s ++ (k, d) :: h).
Proof.
  intros Hnd.
  destruct (emit_sync_unfold beh f k d s) as (s2 & sid & _ & Hu & Hh & Hc & G & _).
  split.
  - exists s2, sid. split; [exact Hh|]. split; [|split; [exact Hc|exact Hu]].
    intros i it Hin E. eapply delivered_one_grows; [|exact G].
    apply deliver_delivered; auto.
  - intros t _. apply emit_sync_delivers; auto. lia.
Qed.

(** ** C2: [return(value)] and the settlement of the instance *)


(** ** C3: rejection does not reach the traversals *)

(** C3 (code): the producer rejects with 5; a traversal then calls [next]
    on its empty queue.  Awaiters observe the rejection, but [endPromise]
    stays unsettled, no reaction is queued and the race of [next] stays
    pending: the traversal receives nothing. *)
Theorem reject_leaves_next_pending :
  let s := exec quiet 10 [AReject 5; ACreate; ANext 0; AJob; AJob] init in
  await_outcome s = Rejected 5 /\ endP s = None /\ jobs s = [] /\
  races s !! 1 = Some (mkRace 0 None) /\ obs 0 (outs s) = [].
Proof. vm_compute. repeat split. Qed.

(** ** C4: a [once] listener that re-emits its own event *)

(** C4 (code): listener 1 is registered with [once] on ["e"] and, when
    called with 1, synchronously emits ["e"] with 2.  One emission of ["e"]
    with 1 calls it twice: with 1, then with 2. *)
Theorem once_listener_called_twice :
  calls (exec beh_reemit 10 [AOnce "e" 1; AEmit "e" (Some 1)] init) =
  [(1, Some 1); (1, Some 2)].
Proof. vm_compute. reflexivity. Qed.

(** ** C6: repeated settlement *)

(** C6 (code): a second [resolve] overwrites [value] although the native
    promise and [endPromise] keep the first value; a [resolve] after a
    [reject] sets [isDone] and settles [endPromise], so a waiting traversal
    terminates with the value while awaiters observe the rejection. *)
Theorem second_settle_not_ignored :
  let s := exec quiet 10 [AResolve 1; AResolve 2] init in
  let t := exec quiet 10 [ACreate; ANext 0; AReject 3; AResolve 4; AJob] init in
  value s = Some 2 /\ await_outcome s = Fulfilled 1 /\ endP s = Some (Some 1) /\
  isDone t = true /\ await_outcome t = Rejected 3 /\ obs 0 (outs t) = [RDone (Some 4)].
Proof. vm_compute. repeat split. Qed.

(** ** C7: [next] after [return] *)

(** C7 (code): one record is emitted, a traversal is created (its queue
    holds the record) and closed with [return()]; its next [next] still
    yields the record.  A traversal closed on an empty queue before the
    producer settles gets no terminal result from [next] until then. *)
Theorem next_after_return_yields :
  let s := exec quiet 10 [AEmit "progress" (Some 1); ACreate; AReturn 1 None; ANext 1] init in
  let t := exec quiet 10 [ACreate; AReturn 0 None; ANext 0; AJob] init in
  obs 1 (outs s) = [RYield ("progress", Some 1)] /\
  obs 0 (outs t) = [] /\ jobs t = [] /\ races t !! 1 = Some (mkRace 0 None).
Proof. vm_compute. repeat split. Qed.

(** ** Witnesses: the hypotheses of the theorems hold on concrete runs *)

Lemma next_op_frame_witness :
  (1 <> 0 /\ races (exec quiet 10 [ACreate; ACreate] init) !! fresh (exec quiet 10 [ACreate; ACreate] init) = None) /\
  iters (next_op 0 (exec quiet 10 [ACreate; ACreate] init)) !! 1 =
  iters (exec quiet 10 [ACreate; ACreate] init) !! 1.
Proof.
  assert (H1 : 1 <> 0) by lia.
  assert (H2 : races (exec quiet 10 [ACreate; ACreate] init) !! fresh (exec quiet 10 [ACreate; ACreate] init) = None)
    by (vm_compute; reflexivity).
  split; [split; assumption|].
  exact (proj1 (next_op_frame 0 1 (exec quiet 10 [ACreate; ACreate] init) H1 H2)).
Defined.

Lemma emit_result_flag_witness :
  (List.NoDup (active (exec quiet 10 [ACreate] init)) /\
   length (listeners_at "e" (exec quiet 10 [ACreate] init)) + 1 < 3) /\
  emit_promise (snd (emit_sync quiet 3 "e" None (exec quiet 10 [ACreate] init))) = EFulfilled 0 false.
Proof.
  assert (H1 : List.NoDup (active (exec quiet 10 [ACreate] init)))
    by (vm_compute; constructor; [simpl; tauto|constructor]).
  assert (H2 : length (listeners_at "e" (exec quiet 10 [ACreate] init)) + 1 < 3)
    by (vm_compute; lia).
  split; [split; assumption|].
  destruct (emit_result_flag quiet 3 "e" None _ H1 H2) as (_ & _ & H0 & _).
  apply H0. vm_compute. reflexivity.
Defined.


Lemma emit_failure_keeps_record_witness :
  List.NoDup (active (exec beh_throw 10 [ACreate; AOn "e" 1] init)) /\
  exists h, history (fst (emit_sync beh_throw 5 "e" (Some 3) (exec beh_throw 10 [ACreate; AOn "e" 1] init))) =
            history (exec beh_throw 10 [ACreate; AOn "e" 1] init) ++ ("e", Some 3) :: h.
Proof.
  assert (H1 : List.NoDup (active (exec beh_throw 10 [ACreate; AOn "e" 1] init)))
    by (vm_compute; constructor; [simpl; tauto|constructor]).
  split; [exact H1|].
  apply (proj2 (emit_failure_keeps_record beh_throw 4 "e" (Some 3) _ H1) 0).
  vm_compute. reflexivity.
Defined.

(** ** C5: dispatch order and the settlement of [emit] *)

Lemma run_cmds_nil (beh : nat -> option Val -> Body) (f : nat) (s : St) :
  run_cmds beh f [] s = s.
Proof. destruct f; reflexivity. Qed.

Lemma entries_del_listener (sid lid : nat) (s : St) :
  entries_of sid (del_listener sid lid s) = map (del_slot lid) (entries_of sid s).
Proof. unfold entries_of at 1, del_listener. st_red. rewrite lookup_insert_eq. reflexivity. Qed.

Lemma del_slot_notin (lid : nat) (l : list (option Listener)) :
  ~ In lid (map l_id (live_of l)) -> map (del_slot lid) l = l.
Proof.
  induction l as [|[x|] l IH]; simpl; intros H; [reflexivity| |].
  - rewrite IH by tauto. destruct (Nat.eqb_spec (l_id x) lid); [tauto|reflexivity].
  - rewrite IH by tauto. reflexivity.
Qed.

Section Snapshot.

Variable beh : nat -> option Val -> Body.


End Snapshot.












(** ** C1: basic lemmas *)







Lemma first_res_none (r : nat) (js : list Job) :
  first_res r js = None -> forall res, ~ In (JSettle r res) js.
Proof.
  induction js as [|[r' res'] js IH]; simpl; [tauto|].
  destruct (Nat.eqb_spec r' r); intros H; [discriminate|].
  intros res [E|Hin]; [injection E; intros; subst; contradiction|].
  exact (IH H res Hin).
Qed.






Lemma reg_refl (s : St) : reg s s.
Proof. unfold reg. repeat split; lia. Qed.

Lemma reg_trans (s1 s2 s3 : St) : reg s1 s2 -> reg s2 s3 -> reg s1 s3.
Proof. unfold reg. intros (A1&B1&C1&D1&E1&F1&G1&H1&I1&J1) (A2&B2&C2&D2&E2&F2&G2&H2&I2&J2). repeat split; congruence || lia. Qed.

Lemma reg_getListeners (k : string) (s : St) : reg s (fst (getListeners k s)).
Proof.
  unfold getListeners. destruct (lmap s !! k); [apply reg_refl|].
  unfold reg; st_red; repeat split; lia.
Qed.

Lemma reg_add_listener (k : string) (f : nat) (b : bool) (s : St) : reg s (add_listener k f b s).
Proof.
  unfold add_listener. pose proof (reg_getListeners k s) as G.
  destruct (getListeners k s) as [s1 sid]. eapply reg_trans; [exact G|].
  unfold reg; st_red; repeat split; lia.
Qed.

Lemma reg_off (k : string) (f : nat) (s : St) : reg s (off k f s).
Proof.
  unfold off. pose proof (reg_getListeners k s) as G.
  destruct (getListeners k s) as [s1 sid]. eapply reg_trans; [exact G|].
  match goal with |- context [if ?c then _ else _] => destruct c end;
    unfold reg; st_red; repeat split; lia.
Qed.

Lemma reg_del_listener (sid lid : nat) (s : St) : reg s (del_listener sid lid s).
Proof. unfold reg, del_listener; st_red; repeat split; lia. Qed.

Lemma reg_set_calls (c : list (nat * option Val)) (s : St) : reg s (set_calls c s).
Proof. unfold reg; st_red; repeat split; lia. Qed.





(** ** C1: emission keeps the invariants *)

Section EmitInv.

Variable beh : nat -> option Val -> Body.
Variable P : St -> Prop.
Hypothesis P_reg : forall s s', P s -> reg s s' -> P s'.
Hypothesis P_deliver : forall ev s, P s -> P (deliver ev s).

Lemma emit_inv_all (fuel : nat) :
  (forall k d s, P s -> P (fst (emit_sync beh fuel k d s))) /\
  (forall k d sid idx ps s, P s -> P (fst (dispatch beh fuel k d sid idx ps s))) /\
  (forall cs s, P s -> P (run_cmds beh fuel cs s)).
Proof.
  induction fuel as [|f (IHe & IHd & IHc)].
  { refine (conj _ (conj _ _)); intros; assumption. }
  refine (conj _ (conj _ _)).
  - intros k d s Hs. simpl.
    pose proof (P_deliver (k, d) s Hs) as G1.
    pose proof (reg_getListeners k (deliver (k, d) s)) as G2.
    destruct (getListeners k (deliver (k, d) s)) as [s2 sid].
    apply IHd. exact (P_reg _ _ G1 G2).
  - intros k d sid idx ps s Hs. simpl.
    destruct (nth_error (entries_of sid s) idx) as [[l|]|].
    + assert (Gc : P (run_cmds beh f (b_cmds (beh (l_fn l) d))
                              (set_calls (calls s ++ [(l_fn l, d)]) s))).
      { apply IHc. exact (P_reg _ _ Hs (reg_set_calls _ s)). }
      destruct (b_ret (beh (l_fn l) d)); simpl; try exact Gc;
        (destruct (l_once l); apply IHd; [exact (P_reg _ _ Gc (reg_del_listener _ _ _))|exact Gc]).
    + apply IHd. exact Hs.
    + destruct (live_count (entries_of sid s) =? 0); simpl; [|exact Hs].
      apply (P_reg s); [exact Hs|]. unfold reg; st_red; repeat split; lia.
  - intros cs s Hs. simpl. destruct cs as [|c cs]; [exact Hs|].
    destruct c; apply IHc.
    + apply IHe. exact Hs.
    + exact (P_reg _ _ Hs (reg_add_listener _ _ _ _)).
    + exact (P_reg _ _ Hs (reg_add_listener _ _ _ _)).
    + exact (P_reg _ _ Hs (reg_off _ _ _)).
Qed.

End EmitInv.











(** ** C1: well-formedness along a run *)











(** ** C1: the invariant of traversal [i] along a run *)














(** ** C1: draining a traversal *)











(** ** Registry: preservation of [RegWF] *)

Lemma live_of_app (a b : list (option Listener)) : live_of (a ++ b) = live_of a ++ live_of b.
Proof. unfold live_of. apply flat_map_app. Qed.

Lemma in_live_of (x : Listener) (l : list (option Listener)) : In x (live_of l) <-> In (Some x) l.
Proof.
  induction l as [|[y|] l IH]; simpl; [tauto| |].
  - rewrite IH. split; intros [H|H]; try (left; congruence); right; exact H.
  - rewrite IH. split; [intros H; right; exact H|intros [H|H]; [discriminate|exact H]].
Qed.

Lemma NoDup_map_filter {A B} (g : A -> B) (p : A -> bool) (l : list A) :
  List.NoDup (map g l) -> List.NoDup (map g (List.filter p l)).
Proof.
  induction l as [|a l IH]; simpl; intros H; [constructor|].
  inversion H as [|? ? Hn Hd]; subst.
  destruct (p a); simpl; [|auto]. constructor; [|auto].
  intros Hin. apply Hn. apply in_map_iff in Hin. destruct Hin as (y & <- & Hy).
  apply List.filter_In in Hy. apply in_map. tauto.
Qed.

Lemma off_slot_filt (f : nat) (l : list (option Listener)) :
  map (fun o => match o with
                | Some x => if l_fn x =? f then None else Some x
                | None => None
                end) l = map (filt (fun x => negb (l_fn x =? f))) l.
Proof. apply map_ext. intros [x|]; simpl; [destruct (l_fn x =? f)|]; reflexivity. Qed.

Lemma del_slot_filt (lid : nat) (l : list (option Listener)) :
  map (del_slot lid) l = map (filt (fun x => negb (l_id x =? lid))) l.
Proof. apply map_ext. intros [x|]; simpl; [destruct (l_id x =? lid)|]; reflexivity. Qed.

Lemma RegWF_keep (s s' : St) :
  lmap s' = lmap s -> sets s' = sets s -> fresh s <= fresh s' -> RegWF s -> RegWF s'.
Proof.
  intros L S F [R1 R2 R3 R4]. split; rewrite ?L, ?S; auto.
  - intros k sid H. specialize (R1 k sid H). lia.
  - intros sid l x H Hx. specialize (R3 sid l x H Hx). lia.
Qed.

Lemma RegWF_delete (k : string) (s : St) : RegWF s -> RegWF (set_lmap (delete k (lmap s)) s).
Proof.
  intros [R1 R2 R3 R4]. split; st_red; auto.
  - intros k' sid H. apply lookup_delete_Some in H. exact (R1 _ _ (proj2 H)).
  - intros k1 k2 sid H1 H2. apply lookup_delete_Some in H1, H2. exact (R2 _ _ _ (proj2 H1) (proj2 H2)).
Qed.

Lemma RegWF_filt (sid : nat) (p : Listener -> bool) (s : St) :
  RegWF s -> RegWF (set_sets (<[sid := map (filt p) (entries_of sid s)]> (sets s)) s).
Proof.
  intros [R1 R2 R3 R4]. split; st_red; auto.
  - intros sid' l x H Hx. destruct (decide (sid' = sid)) as [->|Hne].
    + rewrite lookup_insert_eq in H. injection H as <-.
      apply in_map_iff in Hx. destruct Hx as ([y|] & Hy & Hin); [|discriminate].
      simpl in Hy. destruct (p y); [|discriminate]. injection Hy as ->.
      unfold entries_of in Hin. destruct (sets s !! sid) as [l|] eqn:E; [|destruct Hin].
      exact (R3 _ _ _ E Hin).
    + rewrite lookup_insert_ne in H by congruence. exact (R3 _ _ _ H Hx).
  - intros sid' l H. destruct (decide (sid' = sid)) as [->|Hne].
    + rewrite lookup_insert_eq in H. injection H as <-. rewrite live_of_filt.
      apply NoDup_map_filter. unfold entries_of.
      destruct (sets s !! sid) as [l|] eqn:E; [exact (R4 _ _ E)|constructor].
    + rewrite lookup_insert_ne in H by congruence. exact (R4 _ _ H).
Qed.

Lemma getListeners_RegWF (k : string) (s : St) : RegWF s -> RegWF (fst (getListeners k s)).
Proof.
  intros R. unfold getListeners. destruct (lmap s !! k) as [sid|] eqn:Ek; [exact R|].
  destruct R as [R1 R2 R3 R4]. split; st_red.
  - intros k' sid H. destruct (decide (k' = k)) as [->|Hne].
    + rewrite lookup_insert_eq in H. injection H as <-. lia.
    + rewrite lookup_insert_ne in H by congruence. specialize (R1 _ _ H). lia.
  - intros k1 k2 sid H1 H2.
    destruct (decide (k1 = k)) as [->|N1]; destruct (decide (k2 = k)) as [->|N2]; auto.
    + rewrite lookup_insert_eq in H1. rewrite lookup_insert_ne in H2 by congruence.
      injection H1 as <-. specialize (R1 _ _ H2). lia.
    + rewrite lookup_insert_eq in H2. rewrite lookup_insert_ne in H1 by congruence.
      injection H2 as <-. specialize (R1 _ _ H1). lia.
    + rewrite lookup_insert_ne in H1, H2 by congruence. exact (R2 _ _ _ H1 H2).
  - intros sid l x H Hx. destruct (decide (sid = fresh s)) as [->|Hne].
    + rewrite lookup_insert_eq in H. injection H as <-. destruct Hx.
    + rewrite lookup_insert_ne in H by congruence. specialize (R3 _ _ _ H Hx). lia.
  - intros sid l H. destruct (decide (sid = fresh s)) as [->|Hne].
    + rewrite lookup_insert_eq in H. injection H as <-. constructor.
    + rewrite lookup_insert_ne in H by congruence. exact (R4 _ _ H).
Qed.

Lemma getListeners_lmap (k : string) (s : St) :
  lmap (fst (getListeners k s)) !! k = Some (snd (getListeners k s)) /\
  (forall k', k' <> k -> lmap (fst (getListeners k s)) !! k' = lmap s !! k') /\
  fresh s <= fresh (fst (getListeners k s)) /\
  (forall sid, sid <> snd (getListeners k s) -> sets (fst (getListeners k s)) !! sid = sets s !! sid) /\
  entries_of (snd (getListeners k s)) (fst (getListeners k s)) =
    match lmap s !! k with Some sid => entries_of sid s | None => [] end.
Proof.
  unfold getListeners. destruct (lmap s !! k) as [sid|] eqn:Ek; simpl; [auto|].
  st_red. refine (conj (lookup_insert_eq _ _ _) (conj _ (conj _ (conj _ _)))).
  - intros k' Hne. apply lookup_insert_ne. congruence.
  - lia.
  - intros sid Hne. apply lookup_insert_ne. congruence.
  - unfold entries_of. st_red. rewrite lookup_insert_eq. reflexivity.
Qed.

Lemma add_listener_RegWF (k : string) (f : nat) (b : bool) (s : St) :
  RegWF s -> RegWF (add_listener k f b s).
Proof.
  intros R. unfold add_listener. pose proof (getListeners_RegWF k s R) as R1.
  destruct (getListeners k s) as [s1 sid]. simpl in R1 |- *.
  destruct R1 as [A B C D]. split; st_red; auto.
  - intros k' sid' H. specialize (A _ _ H). lia.
  - intros sid' l x H Hx. destruct (decide (sid' = sid)) as [->|Hne].
    + rewrite lookup_insert_eq in H. injection H as <-. apply in_app_or in Hx.
      destruct Hx as [Hx|[Hx|[]]].
      * unfold entries_of in Hx. destruct (sets s1 !! sid) as [l|] eqn:E; [|destruct Hx].
        specialize (C _ _ _ E Hx). lia.
      * injection Hx as <-. simpl. lia.
    + rewrite lookup_insert_ne in H by congruence. specialize (C _ _ _ H Hx). lia.
  - intros sid' l H. destruct (decide (sid' = sid)) as [->|Hne].
    + rewrite lookup_insert_eq in H. injection H as <-. rewrite live_of_app, map_app.
      simpl. apply List.NoDup_app.
      * unfold entries_of. destruct (sets s1 !! sid) as [l|] eqn:E; [exact (D _ _ E)|constructor].
      * constructor; [tauto|constructor].
      * intros y Hy [Hy'|[]]. simpl in Hy'. subst y.
        apply in_map_iff in Hy. destruct Hy as (x & Hx & Hin). apply in_live_of in Hin.
        unfold entries_of in Hin. destruct (sets s1 !! sid) as [l|] eqn:E; [|destruct Hin].
        specialize (C _ _ _ E Hin). lia.
    + rewrite lookup_insert_ne in H by congruence. exact (D _ _ H).
Qed.

Lemma off_RegWF (k : string) (f : nat) (s : St) : RegWF s -> RegWF (off k f s).
Proof.
  intros R. unfold off. pose proof (getListeners_RegWF k s R) as R1.
  destruct (getListeners k s) as [s1 sid]. simpl in R1 |- *.
  rewrite off_slot_filt.
  pose proof (RegWF_filt sid (fun x => negb (l_fn x =? f)) s1 R1) as R2.
  destruct (live_count _ =? 0); [apply (RegWF_delete k) in R2; simpl in R2|]; exact R2.
Qed.

Lemma del_listener_RegWF (sid lid : nat) (s : St) : RegWF s -> RegWF (del_listener sid lid s).
Proof. intros R. unfold del_listener. rewrite del_slot_filt. apply RegWF_filt. exact R. Qed.

Lemma fold_push_active (ev : Ev) (l : list nat) (t : St) :
  active (fold_left (fun s i => push ev i s) l t) = active t.
Proof.
  revert t. induction l as [|a l IH]; intros t; simpl; [reflexivity|].
  rewrite IH. unfold push. destruct (iters t !! a) as [it|]; [destruct (it_next it)|]; reflexivity.
Qed.

Lemma deliver_RegWF (ev : Ev) (s : St) : RegWF s -> RegWF (deliver ev s).
Proof.
  destruct (deliver_keep ev s) as (A & B & C & _). apply RegWF_keep; auto. lia.
Qed.

Section EmitReg.

Variable beh : nat -> option Val -> Body.

Lemma emit_RegWF_all (fuel : nat) :
  (forall k d s, RegWF s -> RegWF (fst (emit_sync beh fuel k d s))) /\
  (forall k d sid idx ps s, RegWF s -> RegWF (fst (dispatch beh fuel k d sid idx ps s))) /\
  (forall cs s, RegWF s -> RegWF (run_cmds beh fuel cs s)).
Proof.
  induction fuel as [|f (IHe & IHd & IHc)].
  { refine (conj _ (conj _ _)); intros; assumption. }
  refine (conj _ (conj _ _)).
  - intros k d s Hs. simpl.
    pose proof (getListeners_RegWF k _ (deliver_RegWF (k, d) s Hs)) as G.
    destruct (getListeners k (deliver (k, d) s)) as [s2 sid]. apply IHd. exact G.
  - intros k d sid idx ps s Hs. simpl.
    destruct (nth_error (entries_of sid s) idx) as [[l|]|].
    + assert (Gc : RegWF (run_cmds beh f (b_cmds (beh (l_fn l) d))
                              (set_calls (calls s ++ [(l_fn l, d)]) s))).
      { apply IHc. apply (RegWF_keep s); auto. }
      destruct (b_ret (beh (l_fn l) d)); simpl; try exact Gc;
        (destruct (l_once l); apply IHd; [exact (del_listener_RegWF _ _ _ Gc)|exact Gc]).
    + apply IHd. exact Hs.
    + destruct (live_count (entries_of sid s) =? 0); simpl; [apply RegWF_delete|]; exact Hs.
  - intros cs s Hs. simpl. destruct cs as [|c cs]; [exact Hs|].
    destruct c; apply IHc.
    + apply IHe. exact Hs.
    + apply add_listener_RegWF. exact Hs.
    + apply add_listener_RegWF. exact Hs.
    + apply off_RegWF. exact Hs.
Qed.

End EmitReg.

Ltac keep_tac :=
  repeat match goal with
         | |- context [match ?x with _ => _ end] => destruct x
         | |- context [if ?x then _ else _] => destruct x
         end; st_red; first [reflexivity | lia].

Lemma step_RegWF (beh : nat -> option Val -> Body) (fuel : nat) (a : Action) (s : St) :
  RegWF s -> RegWF (step beh fuel a s).
Proof.
  intros R. destruct a; simpl.
  - exact (proj1 (emit_RegWF_all beh fuel) _ _ _ R).
  - apply add_listener_RegWF. exact R.
  - apply add_listener_RegWF. exact R.
  - apply off_RegWF. exact R.
  - apply (RegWF_keep s); [..|exact R]; unfold resolve_op, settle_native, end_resolve; keep_tac.
  - apply (RegWF_keep s); [..|exact R]; unfold reject_op, settle_native; keep_tac.
  - apply (RegWF_keep s); [..|exact R]; cbn; first [reflexivity | lia].
  - apply (RegWF_keep s); [..|exact R]; unfold next_op; keep_tac.
  - apply (RegWF_keep s); [..|exact R]; unfold return_op, done_it, end_resolve; keep_tac.
  - apply (RegWF_keep s); [..|exact R]; unfold run_job; keep_tac.
Qed.

Lemma exec_RegWF (beh : nat -> option Val -> Body) (fuel : nat) (sched : list Action) (s : St) :
  RegWF s -> RegWF (exec beh fuel sched s).
Proof.
  revert s. induction sched as [|a sched IH]; intros s R; simpl; [exact R|].
  apply IH. apply step_RegWF. exact R.
Qed.

Lemma RegWF_init : RegWF init.
Proof.
  split; cbn; intros *; rewrite ?lookup_empty; intros H; discriminate.
Qed.

Lemma reach_RegWF (beh : nat -> option Val -> Body) (fuel : nat) (sched : list Action) :
  RegWF (exec beh fuel sched init).
Proof. apply exec_RegWF. exact RegWF_init. Qed.

Lemma live_count_live (l : list (option Listener)) : live_count l = length (live_of l).
Proof. induction l as [|[x|] l IH]; simpl; auto. Qed.

Lemma live_count_eqb (l : list (option Listener)) :
  (live_count l =? 0) = match live_of l with [] => true | _ => false end.
Proof. rewrite live_count_live. destruct (live_of l); reflexivity. Qed.

Lemma firstn_nth_error_snoc {A} (l : list A) (n : nat) (x : A) :
  nth_error l n = Some x -> firstn (S n) l = firstn n l ++ [x].
Proof.
  revert n. induction l as [|a l IH]; intros [|n] H; simpl in *; try discriminate.
  - inversion H; reflexivity.
  - f_equal. apply IH. exact H.
Qed.

Lemma kept_app_throw (beh : nat -> option Val -> Body) (d : option Val) (l : Listener) (ls : list Listener) :
  b_ret (beh (l_fn l) d) = RetThrow -> kept beh d (l :: ls) = l :: ls.
Proof. intros H. simpl. rewrite H. reflexivity. Qed.

Section DispatchReg.

Variable beh : nat -> option Val -> Body.

Lemma dispatch_registry (k : string) (d : option Val) (sid : nat) (f idx : nat)
  (ps : list Completion) (s : St) :
  (forall l, In (Some l) (skipn idx (entries_of sid s)) -> b_cmds (beh (l_fn l) d) = []) ->
  List.NoDup (map l_id (live_of (entries_of sid s))) ->
  length (entries_of sid s) - idx < f ->
  let s' := fst (dispatch beh f k d sid idx ps s) in
  live_of (entries_of sid s') =
    live_of (firstn idx (entries_of sid s)) ++ kept beh d (live_of (skipn idx (entries_of sid s))) /\
  (forall sid', sid' <> sid -> sets s' !! sid' = sets s !! sid') /\
  fresh s' = fresh s /\
  lmap s' = match live_of (entries_of sid s') with [] => delete k (lmap s) | _ => lmap s end.
Proof.
  revert idx ps s. induction f as [|f IH]; intros idx ps s Hc Hnd Hlen s'; [lia|].
  subst s'. simpl dispatch.
  set (e := entries_of sid s) in *.
  destruct (nth_error e idx) as [[l|]|] eqn:E.
  - pose proof (skipn_nth_error_cons _ _ _ E) as Hsk.
    pose proof (firstn_nth_error_snoc _ _ _ E) as Hfs.
    assert (Hlt : idx < length e) by (apply nth_error_Some; congruence).
    assert (Hsplit : e = firstn idx e ++ Some l :: skipn (S idx) e)
      by (rewrite <- Hsk; symmetry; apply firstn_skipn).
    assert (Hni : ~ In (l_id l) (map l_id (live_of (firstn idx e)) ++
                                 map l_id (live_of (skipn (S idx) e)))).
    { pose proof Hnd as Hnd'. rewrite Hsplit, live_of_app in Hnd'. simpl in Hnd'.
      rewrite map_app in Hnd'. simpl in Hnd'. exact (NoDup_remove_2 _ _ _ Hnd'). }
    rewrite Hsk in Hc. rewrite (Hc l (or_introl eq_refl)), run_cmds_nil.
    set (s1 := set_calls (calls s ++ [(l_fn l, d)]) s).
    assert (Hafter : forall c, b_ret (beh (l_fn l) d) <> RetThrow ->
      let s2 := if l_once l then del_listener sid (l_id l) s1 else s1 in
      let s' := fst (dispatch beh f k d sid (S idx) (ps ++ [c]) s2) in
      live_of (entries_of sid s') =
        live_of (firstn idx e) ++ kept beh d (live_of (skipn idx e)) /\
      (forall sid', sid' <> sid -> sets s' !! sid' = sets s !! sid') /\
      fresh s' = fresh s /\
      lmap s' = match live_of (entries_of sid s') with [] => delete k (lmap s) | _ => lmap s end).
    { intros c Hbr s2 s'.
      assert (He2 : entries_of sid s2 = if l_once l then map (del_slot (l_id l)) e else e)
        by (subst s2; destruct (l_once l); [apply entries_del_listener|reflexivity]).
      assert (Hsets : forall sid', sid' <> sid -> sets s2 !! sid' = sets s !! sid').
      { intros sid' Hne. subst s2. destruct (l_once l); [|reflexivity].
        unfold del_listener. st_red. apply lookup_insert_ne. congruence. }
      assert (Hl2 : lmap s2 = lmap s) by (subst s2; destruct (l_once l); reflexivity).
      assert (Hf2 : fresh s2 = fresh s) by (subst s2; destruct (l_once l); reflexivity).
      assert (Hsk2 : skipn (S idx) (entries_of sid s2) = skipn (S idx) e).
      { rewrite He2. destruct (l_once l); [|reflexivity].
        rewrite skipn_map. apply del_slot_notin.
        intros Hin. apply Hni. apply in_or_app. right. exact Hin. }
      assert (Hnd2 : List.NoDup (map l_id (live_of (entries_of sid s2)))).
      { rewrite He2. destruct (l_once l); [|exact Hnd].
        rewrite del_slot_filt, live_of_filt. apply NoDup_map_filter. exact Hnd. }
      assert (Hlen2 : length (entries_of sid s2) = length e)
        by (rewrite He2; destruct (l_once l); [apply length_map|reflexivity]).
      destruct (IH (S idx) (ps ++ [c]) s2) as (A & B & C & D).
      { rewrite Hsk2. intros l' Hl'. apply Hc. right. exact Hl'. }
      { exact Hnd2. }
      { rewrite Hlen2. lia. }
      fold s' in A, B, C, D.
      rewrite Hsk2 in A. rewrite Hl2 in D.
      refine (conj _ (conj _ (conj _ D))).
      - rewrite A, Hsk. simpl. destruct (b_ret (beh (l_fn l) d)); [| |contradiction];
          rewrite He2; destruct (l_once l) eqn:Eo.
        + rewrite firstn_map, Hfs, map_app, live_of_app.
          rewrite (del_slot_notin (l_id l) (firstn idx e))
            by (intros Hin; apply Hni; apply in_or_app; left; exact Hin).
          simpl. rewrite Nat.eqb_refl. simpl. rewrite app_nil_r. reflexivity.
        + rewrite Hfs, live_of_app. simpl. rewrite <- app_assoc. reflexivity.
        + rewrite firstn_map, Hfs, map_app, live_of_app.
          rewrite (del_slot_notin (l_id l) (firstn idx e))
            by (intros Hin; apply Hni; apply in_or_app; left; exact Hin).
          simpl. rewrite Nat.eqb_refl. simpl. rewrite app_nil_r. reflexivity.
        + rewrite Hfs, live_of_app. simpl. rewrite <- app_assoc. reflexivity.
      - intros sid' Hne. rewrite B by exact Hne. apply Hsets. exact Hne.
      - rewrite C. exact Hf2. }
    destruct (b_ret (beh (l_fn l) d)) eqn:Er.
    + exact (Hafter (Some (0, true)) ltac:(congruence)).
    + exact (Hafter c ltac:(congruence)).
    + simpl. subst s1. unfold entries_of at 1. st_red. change (default [] (sets s !! sid)) with e.
      assert (Hl : In l (live_of e)).
      { apply in_live_of. rewrite Hsplit. apply in_or_app. right. left. reflexivity. }
      refine (conj _ (conj (fun _ _ => eq_refl) (conj eq_refl _))).
      * rewrite <- (firstn_skipn idx e) at 1. rewrite live_of_app, Hsk. simpl.
        rewrite Er. reflexivity.
      * change (entries_of sid (set_calls (calls s ++ [(l_fn l, d)]) s)) with e.
        destruct (live_of e); [destruct Hl|reflexivity].
  - pose proof (skipn_nth_error_cons _ _ _ E) as Hsk.
    pose proof (firstn_nth_error_snoc _ _ _ E) as Hfs.
    assert (Hlt : idx < length e) by (apply nth_error_Some; congruence).
    destruct (IH (S idx) ps s) as (A & B & C & D).
    { rewrite Hsk in Hc. intros l' Hl'. apply Hc. right. exact Hl'. }
    { exact Hnd. }
    { fold e. lia. }
    fold e in A.
    assert (A' : live_of (entries_of sid (fst (dispatch beh f k d sid (S idx) ps s))) =
                 live_of (firstn idx e) ++ kept beh d (live_of (skipn idx e)))
      by (rewrite A, Hfs, Hsk, live_of_app; simpl; rewrite app_nil_r; reflexivity).
    rewrite <- A'. auto.
  - apply List.nth_error_None in E.
    rewrite firstn_all2, skipn_all2 by exact E. simpl. rewrite app_nil_r.
    rewrite live_count_eqb.
    destruct (live_of e) eqn:L; cbn [fst].
    + change (entries_of sid (set_lmap (delete k (lmap s)) s)) with e. rewrite L. auto.
    + change (entries_of sid s) with e. rewrite L. auto.
Qed.

End DispatchReg.

Lemma RegWF_nodup_entries (sid : nat) (s : St) :
  RegWF s -> List.NoDup (map l_id (live_of (entries_of sid s))).
Proof.
  intros R. unfold entries_of. destruct (sets s !! sid) as [l|] eqn:E; simpl.
  - exact (rw_nodup _ R _ _ E).
  - constructor.
Qed.

(** X6: when the listeners of [k] make no calls on the instance, [emit(k, d)]
    leaves in the [Set] of [k] exactly the records [kept] describes: each
    [once] record it called is deleted, the [on] records stay, and a
    throwing listener stops the loop with itself and every later record
    left in place; [k] is removed from the map exactly when nothing is
    left, and the listeners of every other event are untouched. *)
Theorem emit_updates_registry (beh : nat -> option Val -> Body) (fuel0 : nat) (sched : list Action)
  (fuel : nat) (k : string) (d : option Val) :
  let s := exec beh fuel0 sched init in
  (forall l, In l (live_of (listeners_at k s)) -> b_cmds (beh (l_fn l) d) = []) ->
  length (listeners_at k s) + 1 < fuel ->
  let s' := fst (emit_sync beh fuel k d s) in
  live_of (listeners_at k s') = kept beh d (live_of (listeners_at k s)) /\
  (lmap s' !! k = None <-> kept beh d (live_of (listeners_at k s)) = []) /\
  (forall k', k' <> k -> listeners_at k' s' = listeners_at k' s).
Proof.
  intros s Hc Hlen s'. pose proof (reach_RegWF beh fuel0 sched) as R. fold s in R.
  destruct fuel as [|f]; [lia|].
  destruct (emit_sync_unfold beh f k d s) as (s2 & sid & G & Eq & _ & _ & _ & He).
  subst s'. rewrite Eq.
  destruct (getListeners_lmap k (deliver (k, d) s)) as (L1 & L2 & _ & L4 & _).
  rewrite G in L1, L2, L4. simpl in L1, L2, L4.
  destruct (deliver_keep (k, d) s) as (Dl & Ds & _ & _).
  pose proof (getListeners_RegWF k _ (deliver_RegWF (k, d) s R)) as R2.
  rewrite G in R2. simpl in R2.
  destruct (dispatch_registry beh k d sid f 0 [] s2) as (A & B & _ & D).
  { simpl. rewrite He. intros l Hl. apply Hc. apply in_live_of. exact Hl. }
  { apply RegWF_nodup_entries. exact R2. }
  { rewrite He. lia. }
  rewrite He, firstn_O, skipn_O in A. simpl app in A.
  set (t := fst (dispatch beh f k d sid 0 [] s2)) in *.
  remember (kept beh d (live_of (listeners_at k s))) as L eqn:EL.
  rewrite A in D.
  refine (conj _ (conj _ _)).
  - unfold listeners_at at 1. rewrite D.
    destruct L; cbv beta iota; [rewrite lookup_delete_eq; reflexivity|].
    rewrite L1, A. reflexivity.
  - rewrite D. destruct L; cbv beta iota; [rewrite lookup_delete_eq; tauto|].
    rewrite L1. split; discriminate.
  - intros k' Hne. unfold listeners_at.
    assert (Hk' : lmap t !! k' = lmap s !! k').
    { rewrite D, <- Dl, <- (L2 k' Hne). destruct L; cbv beta iota; [apply lookup_delete_ne; congruence|reflexivity]. }
    rewrite Hk'. destruct (lmap s !! k') as [sid'|] eqn:E'; [|reflexivity].
    assert (Hsid : sid' <> sid).
    { intros ->. apply Hne. apply (rw_inj _ R2 k' k sid); [|exact L1].
      rewrite (L2 k' Hne), Dl. exact E'. }
    unfold entries_of. rewrite B by exact Hsid. rewrite L4 by exact Hsid. rewrite Ds. reflexivity.
Qed.

Lemma getListeners_other (k k' : string) (s : St) (sid' : nat) :
  RegWF s -> k' <> k -> lmap s !! k' = Some sid' ->
  sid' <> snd (getListeners k s) /\ lmap (fst (getListeners k s)) !! k' = Some sid' /\
  sets (fst (getListeners k s)) !! sid' = sets s !! sid'.
Proof.
  intros R Hne E.
  destruct (getListeners_lmap k s) as (L1 & L2 & _ & L4 & _).
  pose proof (getListeners_RegWF k s R) as R1.
  assert (E1 : lmap (fst (getListeners k s)) !! k' = Some sid') by (rewrite L2 by exact Hne; exact E).
  assert (Hsid : sid' <> snd (getListeners k s)).
  { intros Heq. apply Hne. rewrite Heq in E1. exact (rw_inj _ R1 _ _ _ E1 L1). }
  refine (conj Hsid (conj E1 _)). apply L4. exact Hsid.
Qed.

Lemma add_listener_at (k : string) (f : nat) (b : bool) (s : St) :
  RegWF s ->
  let lid := fresh (fst (getListeners k s)) in
  ~ In lid (map l_id (live_of (listeners_at k s))) /\
  listeners_at k (add_listener k f b s) = listeners_at k s ++ [Some (mkListener lid f b)] /\
  (forall k', k' <> k -> listeners_at k' (add_listener k f b s) = listeners_at k' s).
Proof.
  intros R lid.
  destruct (getListeners_lmap k s) as (L1 & L2 & _ & L4 & L5).
  pose proof (getListeners_RegWF k s R) as R1.
  pose proof (fun k' sid' => getListeners_other k k' s sid' R) as Go.
  unfold add_listener, lid in *.
  destruct (getListeners k s) as [s1 sid]. simpl in L1, L2, L4, L5, R1, Go |- *.
  assert (Hat : listeners_at k s = entries_of sid s1)
    by (rewrite L5; unfold listeners_at; reflexivity).
  refine (conj _ (conj _ _)).
  - rewrite Hat. intros Hin. apply in_map_iff in Hin. destruct Hin as (x & Hx & Hin).
    apply in_live_of in Hin. unfold entries_of in Hin.
    destruct (sets s1 !! sid) as [l|] eqn:E; [|destruct Hin].
    pose proof (rw_ids _ R1 _ _ _ E Hin). lia.
  - unfold listeners_at at 1. st_red. rewrite L1. unfold entries_of at 1. st_red.
    rewrite lookup_insert_eq. simpl. rewrite Hat. reflexivity.
  - intros k' Hne. unfold listeners_at. st_red.
    destruct (lmap s !! k') as [sid'|] eqn:E'.
    + destruct (Go k' sid' Hne E') as (Hsid & E1 & Es). rewrite E1.
      unfold entries_of. st_red. rewrite lookup_insert_ne by congruence. rewrite Es. reflexivity.
    + rewrite L2 by exact Hne. rewrite E'. reflexivity.
Qed.

Lemma off_at (k : string) (f : nat) (s : St) :
  RegWF s ->
  let p := fun x => negb (l_fn x =? f) in
  live_of (listeners_at k (off k f s)) = List.filter p (live_of (listeners_at k s)) /\
  (lmap (off k f s) !! k = None <-> List.filter p (live_of (listeners_at k s)) = []) /\
  (forall k', k' <> k -> listeners_at k' (off k f s) = listeners_at k' s).
Proof.
  intros R p.
  destruct (getListeners_lmap k s) as (L1 & L2 & _ & L4 & L5).
  pose proof (fun k' sid' => getListeners_other k k' s sid' R) as Go.
  unfold off.
  destruct (getListeners k s) as [s1 sid]. simpl in L1, L2, L4, L5, Go |- *.
  rewrite off_slot_filt. fold p.
  assert (Hat : listeners_at k s = entries_of sid s1)
    by (rewrite L5; unfold listeners_at; reflexivity).
  rewrite Hat, <- live_of_filt, live_count_eqb.
  assert (Hent : entries_of sid (set_sets (<[sid:=map (filt p) (entries_of sid s1)]> (sets s1)) s1)
                 = map (filt p) (entries_of sid s1))
    by (unfold entries_of at 1; st_red; rewrite lookup_insert_eq; reflexivity).
  assert (Hoth : forall k', k' <> k ->
            listeners_at k' (set_sets (<[sid:=map (filt p) (entries_of sid s1)]> (sets s1)) s1) =
            listeners_at k' s).
  { intros k' Hne. unfold listeners_at. st_red.
    destruct (lmap s !! k') as [sid'|] eqn:E'.
    + destruct (Go k' sid' Hne E') as (Hsid & E1 & Es). rewrite E1.
      unfold entries_of. st_red. rewrite lookup_insert_ne by congruence. rewrite Es. reflexivity.
    + rewrite L2 by exact Hne. rewrite E'. reflexivity. }
  destruct (live_of (map (filt p) (entries_of sid s1))) as [|x l] eqn:El; cbv beta iota.
  - refine (conj _ (conj _ _)).
    + unfold listeners_at. st_red. rewrite lookup_delete_eq. reflexivity.
    + st_red. rewrite lookup_delete_eq. tauto.
    + intros k' Hne. rewrite <- (Hoth k' Hne). unfold listeners_at. st_red.
      rewrite lookup_delete_ne by congruence. reflexivity.
  - refine (conj _ (conj _ Hoth)).
    + unfold listeners_at. st_red. rewrite L1, Hent. exact El.
    + st_red. rewrite L1. split; discriminate.
Qed.

(** X4: [off] on an event name that has no [Set] leaves the [listeners]
    map as it was: the [Set] [getListeners] creates is deleted again. *)
Theorem off_unregistered_keeps_map (k : string) (f : nat) (s : St) :
  lmap s !! k = None -> lmap (off k f s) = lmap s.
Proof.
  intros E. unfold off, getListeners. rewrite E. cbv zeta. unfold entries_of. st_red.
  rewrite lookup_insert_eq. simpl. st_red. apply delete_insert_id. exact E.
Qed.

(** Fields [push] leaves alone. *)
Lemma fold_push_fields (ev : Ev) (l : list nat) (t : St) :
  let t' := fold_left (fun s i => push ev i s) l t in
  native t' = native t /\ endP t' = endP t /\ active t' = active t /\ fresh t' = fresh t /\
  (forall i, ~ In i l -> iters t' !! i = iters t !! i).
Proof.
  revert t. induction l as [|a l IH]; intros t; simpl; [auto|].
  destruct (IH (push ev a t)) as (A & B & C & D & E).
  rewrite A, B, C, D.
  refine (conj _ (conj _ (conj _ (conj _ _)))).
  1-4: unfold push; destruct (iters t !! a) as [it|]; [destruct (it_next it)|]; reflexivity.
  intros i Hi. rewrite E by tauto. apply push_other. intros ->. apply Hi. left. reflexivity.
Qed.

Lemma deliver_fields (ev : Ev) (s : St) :
  native (deliver ev s) = native s /\ endP (deliver ev s) = endP s /\
  active (deliver ev s) = active s /\ fresh (deliver ev s) = fresh s /\
  (forall i, ~ In i (active s) -> iters (deliver ev s) !! i = iters s !! i).
Proof. apply (fold_push_fields ev (active s) (set_history (history s ++ [ev]) s)). Qed.

Lemma end_resolve_native (x : option Val) (s : St) : native (end_resolve x s) = native s.
Proof. unfold end_resolve. destruct (endP s); reflexivity. Qed.

Lemma end_resolve_settled (x : option Val) (y : option Val) (s : St) :
  endP s = Some y -> end_resolve x s = s.
Proof. unfold end_resolve. intros ->. reflexivity. Qed.

Lemma settle_native_done (p : PState) (t : St) : native t <> Pending -> settle_native p t = t.
Proof. unfold settle_native. destruct (native t); congruence. Qed.

Lemma settle_native_endP (p : PState) (t : St) : endP (settle_native p t) = endP t.
Proof. unfold settle_native. destruct (native t); reflexivity. Qed.

(** What settles stays settled, across one step. *)
Lemma step_settled (beh : nat -> option Val -> Body) (fuel : nat) (a : Action) (s : St) :
  (native s <> Pending -> native (step beh fuel a s) = native s) /\
  (forall x, endP s = Some x -> endP (step beh fuel a s) = Some x).
Proof.
  destruct a; simpl.
  - set (P := fun t => (native s <> Pending -> native t = native s) /\
                       (forall x, endP s = Some x -> endP t = Some x)).
    refine (proj1 (emit_inv_all beh P _ _ fuel) k d s _).
    + intros t t' [Hn He] Hr. destruct Hr as (R1 & R2 & _). unfold P.
      rewrite R1, R2. auto.
    + intros ev t [Hn He]. destruct (deliver_fields ev t) as (D1 & D2 & _). unfold P.
      rewrite D1, D2. auto.
    + unfold P. auto.
  - unfold on. destruct (reg_add_listener k f false s) as (R1 & R2 & _). rewrite R1, R2. auto.
  - unfold once. destruct (reg_add_listener k f true s) as (R1 & R2 & _). rewrite R1, R2. auto.
  - destruct (reg_off k f s) as (R1 & R2 & _). rewrite R1, R2. auto.
  - unfold resolve_op. split; [intros Hn|intros x Hx].
    + rewrite settle_native_done; st_red; rewrite end_resolve_native; [reflexivity|exact Hn].
    + rewrite settle_native_endP. st_red. rewrite (end_resolve_settled _ _ _ Hx). exact Hx.
  - unfold reject_op. split; [intros Hn|intros x Hx].
    + rewrite settle_native_done by exact Hn. reflexivity.
    + rewrite settle_native_endP. exact Hx.
  - auto.
  - unfold next_op. destruct (iters s !! i) as [it|]; [|auto].
    destruct (it_queue it); [|st_red; auto].
    destruct (endP _) eqn:Ee; st_red; (split; [intros _; reflexivity|intros x Hx; congruence]).
  - unfold return_op. destruct (iters s !! i) as [it|]; [|auto].
    set (s1 := done_it i v (set_active (remove_id i (active s)) s)).
    assert (N1 : native s1 = native s /\ endP s1 = endP s).
    { subst s1. unfold done_it. st_red.
      destruct (iters s !! i) as [it'|]; [destruct (it_next it')|]; st_red; auto. }
    destruct N1 as [N1 E1].
    destruct v as [w|]; [destruct (negb (isDone s1))|];
      (split; [intros _|intros x Hx]); rewrite ?end_resolve_native; try congruence.
    rewrite (end_resolve_settled _ x) by congruence. congruence.
  - unfold run_job. split; [intros _|intros x Hx];
      destruct (jobs s) as [|[r res] js]; try reflexivity; try exact Hx;
      st_red; destruct (races s !! r) as [rc|]; [destruct (r_settled rc)| |destruct (r_settled rc)|];
      st_red; first [reflexivity | exact Hx].
Qed.

Lemma exec_settled (beh : nat -> option Val -> Body) (fuel : nat) (sched : list Action) (s : St) :
  (native s <> Pending -> native (exec beh fuel sched s) = native s) /\
  (forall x, endP s = Some x -> endP (exec beh fuel sched s) = Some x).
Proof.
  revert s. induction sched as [|a sched IH]; intros s; simpl; [auto|].
  destruct (step_settled beh fuel a s) as [A B].
  destruct (IH (step beh fuel a s)) as [C D]. split.
  - intros Hn. rewrite C; rewrite A; auto.
  - intros x Hx. apply D. apply B. exact Hx.
Qed.

Ltac same_tac :=
  repeat match goal with
         | |- context [match ?x with _ => _ end] => destruct x
         | |- context [if ?x then _ else _] => destruct x
         end; st_red; reflexivity.

Lemma step_history (beh : nat -> option Val -> Body) (fuel : nat) (a : Action) (s : St) :
  (forall k d, a <> AEmit k d) -> history (step beh fuel a s) = history s.
Proof.
  intros Ha. destruct a; simpl.
  - exfalso. exact (Ha k d eq_refl).
  - apply (reg_add_listener k f false s).
  - apply (reg_add_listener k f true s).
  - apply (reg_off k f s).
  - unfold resolve_op, settle_native, end_resolve. same_tac.
  - unfold reject_op, settle_native. same_tac.
  - reflexivity.
  - unfold next_op. same_tac.
  - unfold return_op, done_it, end_resolve. same_tac.
  - unfold run_job. same_tac.
Qed.

Lemma emit_history (beh : nat -> option Val -> Body) (fuel : nat) (k : string) (d : option Val) (s : St) :
  exists h, history (fst (emit_sync beh fuel k d s)) = history s ++ h /\
            (0 < fuel -> exists h', h = (k, d) :: h').
Proof.
  destruct fuel as [|f].
  - exists []. rewrite app_nil_r. split; [reflexivity|lia].
  - destruct (emit_sync_unfold beh f k d s) as (s2 & sid & _ & Eq & Hh & _).
    destruct (proj1 (proj2 (emit_grows_all beh f)) k d sid 0 [] s2) as (_ & (h & H) & _).
    rewrite Eq, H, Hh. exists ((k, d) :: h). rewrite <- app_assoc.
    split; [reflexivity|]. intros _. exists h. reflexivity.
Qed.

Lemma exec_history (beh : nat -> option Val -> Body) (fuel : nat) (sched : list Action) (s : St) :
  history s `prefix_of` history (exec beh fuel sched s).
Proof.
  revert s. induction sched as [|a sched IH]; intros s; simpl; [reflexivity|].
  transitivity (history (step beh fuel a s)); [|apply IH].
  destruct a; try (rewrite step_history by discriminate; reflexivity).
  simpl. destruct (emit_history beh fuel k d s) as (h & H & _). rewrite H. exists h. reflexivity.
Qed.

Lemma push_below (ev : Ev) (a : nat) (t : St) : iters_below t -> iters_below (push ev a t).
Proof.
  unfold iters_below, push. intros H j it' Hj.
  destruct (iters t !! a) as [it|] eqn:Ea; [|exact (H _ _ Hj)].
  destruct (it_next it); st_red; (destruct (decide (j = a)) as [->|Hne];
    [exact (H _ _ Ea)|rewrite lookup_insert_ne in Hj by congruence; exact (H _ _ Hj)]).
Qed.

Lemma deliver_below (ev : Ev) (s : St) : iters_below s -> iters_below (deliver ev s).
Proof.
  unfold deliver. intros H. assert (H0 : iters_below (set_history (history s ++ [ev]) s)) by exact H.
  revert H0. generalize (set_history (history s ++ [ev]) s). induction (active s) as [|a l IH];
    intros t Ht; simpl; [exact Ht|]. apply IH. apply push_below. exact Ht.
Qed.

Lemma step_below (beh : nat -> option Val -> Body) (fuel : nat) (a : Action) (s : St) :
  iters_below s -> iters_below (step beh fuel a s).
Proof.
  intros H. destruct a; simpl.
  - refine (proj1 (emit_inv_all beh iters_below _ _ fuel) k d s H).
    + intros t t' Ht (_ & _ & _ & F & I & _) j it Hj. rewrite I in Hj. specialize (Ht _ _ Hj). lia.
    + exact deliver_below.
  - destruct (reg_add_listener k f false s) as (_ & _ & _ & F & I & _).
    intros j it Hj. unfold on in Hj. rewrite I in Hj. specialize (H _ _ Hj). unfold on. lia.
  - destruct (reg_add_listener k f true s) as (_ & _ & _ & F & I & _).
    intros j it Hj. unfold once in Hj. rewrite I in Hj. specialize (H _ _ Hj). unfold once. lia.
  - destruct (reg_off k f s) as (_ & _ & _ & F & I & _).
    intros j it Hj. rewrite I in Hj. specialize (H _ _ Hj). lia.
  - assert (E : iters (resolve_op w s) = iters s /\ fresh (resolve_op w s) = fresh s)
      by (split; unfold resolve_op, settle_native, end_resolve; same_tac).
    intros j it Hj. rewrite (proj1 E) in Hj. rewrite (proj2 E). exact (H _ _ Hj).
  - assert (E : iters (reject_op e s) = iters s /\ fresh (reject_op e s) = fresh s)
      by (split; unfold reject_op, settle_native; same_tac).
    intros j it Hj. rewrite (proj1 E) in Hj. rewrite (proj2 E). exact (H _ _ Hj).
  - intros j it Hj. cbn in Hj |- *. destruct (decide (j = fresh s)) as [->|Hne]; [lia|].
    rewrite lookup_insert_ne in Hj by congruence. specialize (H _ _ Hj). lia.
  - unfold next_op. destruct (iters s !! i) as [it0|] eqn:Ei; [|exact H].
    assert (Hi : i < fresh s) by exact (H _ _ Ei).
    destruct (it_queue it0) as [|e q].
    + assert (B : iters_below (set_fresh (S (fresh s)) (set_races (<[fresh s:=mkRace i None]> (races s))
                    (set_iters (<[i:=mkIter [] (Some (fresh s))]> (iters s)) s)))).
      { intros j it Hj. st_red. destruct (decide (j = i)) as [->|Hne]; [lia|].
        rewrite lookup_insert_ne in Hj by congruence. specialize (H _ _ Hj). lia. }
      destruct (endP _); exact B.
    + intros j it Hj. st_red. destruct (decide (j = i)) as [->|Hne]; [lia|].
      rewrite lookup_insert_ne in Hj by congruence. exact (H _ _ Hj).
  - unfold return_op. destruct (iters s !! i) as [it0|] eqn:Ei; [|exact H].
    assert (B : iters_below (done_it i v (set_active (remove_id i (active s)) s))).
    { unfold done_it. st_red. rewrite Ei. destruct (it_next it0); [|exact H].
      intros j it Hj. st_red. destruct (decide (j = i)) as [->|Hne]; [exact (H _ _ Ei)|].
      rewrite lookup_insert_ne in Hj by congruence. exact (H _ _ Hj). }
    assert (Hr : forall x t, iters_below t -> iters_below (end_resolve x t))
      by (intros x t Ht; unfold end_resolve; destruct (endP t); exact Ht).
    destruct v; [destruct (negb _); [apply Hr|]|]; exact B.
  - unfold run_job. destruct (jobs s) as [|[r res] js]; [exact H|].
    st_red. destruct (races s !! r) as [rc|]; [destruct (r_settled rc)|]; exact H.
Qed.

Lemma exec_below (beh : nat -> option Val -> Body) (fuel : nat) (sched : list Action) (s : St) :
  iters_below s -> iters_below (exec beh fuel sched s).
Proof.
  revert s. induction sched as [|a sched IH]; intros s H; simpl; [exact H|].
  apply IH. apply step_below. exact H.
Qed.

Lemma in_remove_id (i j : nat) (l : list nat) : In i (remove_id j l) <-> In i l /\ i <> j.
Proof.
  unfold remove_id. rewrite List.filter_In. destruct (Nat.eqb_spec i j); simpl; intuition congruence.
Qed.

Lemma step_detached (beh : nat -> option Val -> Body) (fuel : nat) (a : Action) (s : St)
  (i : nat) (q : list Ev) :
  a <> ANext i -> detached i q s -> detached i q (step beh fuel a s).
Proof.
  intros Ha H. destruct a; simpl.
  - refine (proj1 (emit_inv_all beh (detached i q) _ _ fuel) k d s H).
    + intros t t' (A & B & C) (_ & _ & _ & F & I & Ac & _). unfold detached.
      rewrite I, Ac. refine (conj A (conj B _)). lia.
    + intros ev t (A & B & C). destruct (deliver_fields ev t) as (_ & _ & Ac & F & I).
      unfold detached. rewrite I, Ac, F by exact B. auto.
  - destruct (reg_add_listener k f false s) as (_ & _ & _ & F & I & Ac & _).
    destruct H as (A & B & C). unfold detached, on. rewrite I, Ac. refine (conj A (conj B _)). lia.
  - destruct (reg_add_listener k f true s) as (_ & _ & _ & F & I & Ac & _).
    destruct H as (A & B & C). unfold detached, once. rewrite I, Ac. refine (conj A (conj B _)). lia.
  - destruct (reg_off k f s) as (_ & _ & _ & F & I & Ac & _).
    destruct H as (A & B & C). unfold detached. rewrite I, Ac. refine (conj A (conj B _)). lia.
  - assert (E : iters (resolve_op w s) = iters s /\ active (resolve_op w s) = active s /\
                fresh (resolve_op w s) = fresh s)
      by (refine (conj _ (conj _ _)); unfold resolve_op, settle_native, end_resolve; same_tac).
    destruct E as (E1 & E2 & E3). unfold detached. rewrite E1, E2, E3. exact H.
  - assert (E : iters (reject_op e s) = iters s /\ active (reject_op e s) = active s /\
                fresh (reject_op e s) = fresh s)
      by (refine (conj _ (conj _ _)); unfold reject_op, settle_native; same_tac).
    destruct E as (E1 & E2 & E3). unfold detached. rewrite E1, E2, E3. exact H.
  - destruct H as (A & B & C). unfold detached. cbn.
    rewrite lookup_insert_ne by lia. refine (conj A (conj _ _)); [|lia].
    intros Hin. apply in_app_or in Hin. destruct Hin as [Hin|[Hin|[]]]; [tauto|lia].
  - assert (Hne : i0 <> i) by congruence.
    destruct H as (A & B & C). unfold detached, next_op.
    destruct (iters s !! i0) as [it|]; [|auto].
    destruct (it_queue it) as [|e q'].
    + destruct (endP _); st_red; rewrite lookup_insert_ne by congruence;
        refine (conj A (conj B _)); lia.
    + st_red. rewrite lookup_insert_ne by congruence. auto.
  - destruct H as (A & B & C). unfold detached, return_op.
    destruct (iters s !! i0) as [it|] eqn:Ei0; [|auto].
    set (s1 := done_it i0 v (set_active (remove_id i0 (active s)) s)).
    assert (H1 : iters s1 !! i = Some (mkIter q None) /\ ~ In i (active s1) /\ i < fresh s1).
    { subst s1. unfold done_it. st_red.
      assert (Ba : ~ In i (remove_id i0 (active s))) by (rewrite in_remove_id; tauto).
      destruct (decide (i0 = i)) as [->|Hne].
      - rewrite A. simpl. st_red. auto.
      - destruct (iters s !! i0) as [it0|]; [destruct (it_next it0)|]; st_red;
          rewrite ?lookup_insert_ne by congruence; auto. }
    assert (Hr : forall x t, iters (end_resolve x t) = iters t /\ active (end_resolve x t) = active t /\
                             fresh (end_resolve x t) = fresh t)
      by (intros x t; unfold end_resolve; destruct (endP t); st_red; auto).
    destruct v; [destruct (negb _)|]; try exact H1.
    destruct (Hr (Some v) s1) as (R1 & R2 & R3). rewrite R1, R2, R3. exact H1.
  - unfold detached, run_job. destruct (jobs s) as [|[r res] js]; [exact H|].
    st_red. destruct (races s !! r) as [rc|]; [destruct (r_settled rc)|]; exact H.
Qed.

Lemma exec_detached (beh : nat -> option Val -> Body) (fuel : nat) (sched : list Action) (s : St)
  (i : nat) (q : list Ev) :
  (forall a, In a sched -> a <> ANext i) -> detached i q s -> detached i q (exec beh fuel sched s).
Proof.
  revert s. induction sched as [|a sched IH]; intros s Ha H; simpl; [exact H|].
  apply IH; [intros b Hb; apply Ha; right; exact Hb|].
  apply step_detached; [apply Ha; left; reflexivity|exact H].
Qed.

Lemma return_op_detaches (i : nat) (v : option Val) (s : St) (it : Iter) :
  iters s !! i = Some it ->
  let s1 := return_op i v s in
  ~ In i (active s1) /\ iters s1 !! i = Some (mkIter (it_queue it) None) /\
  (forall r, it_next it = Some r -> In (JSettle r (RDone v)) (jobs s1)) /\ fresh s1 = fresh s.
Proof.
  intros E s1. subst s1. unfold return_op. rewrite E.
  set (s1 := done_it i v (set_active (remove_id i (active s)) s)).
  assert (H1 : ~ In i (active s1) /\ iters s1 !! i = Some (mkIter (it_queue it) None) /\
               (forall r, it_next it = Some r -> In (JSettle r (RDone v)) (jobs s1)) /\
               fresh s1 = fresh s).
  { subst s1. unfold done_it. st_red. rewrite E.
    assert (Ba : ~ In i (remove_id i (active s))) by (rewrite in_remove_id; tauto).
    destruct (it_next it) as [r|] eqn:En; st_red.
    - rewrite lookup_insert_eq. refine (conj Ba (conj eq_refl (conj _ eq_refl))).
      intros r' Hr. injection Hr as <-. apply in_or_app. right. left. reflexivity.
    - refine (conj Ba (conj _ (conj _ eq_refl))); [destruct it; simpl in *; subst; exact E|discriminate]. }
  destruct v as [w|]; [destruct (negb (isDone s1))|]; try exact H1.
  destruct H1 as (A & B & C & D). unfold end_resolve. destruct (endP s1); [auto|].
  st_red. refine (conj A (conj B (conj _ D))). intros r Hr. apply in_or_app. left. exact (C r Hr).
Qed.

(** X7: emitting an event that has no [Set] calls nothing and leaves the
    [listeners] map as it was: the [Set] [getListeners] creates for the
    loop is deleted again by the size check. *)
Theorem emit_unregistered_keeps_map (beh : nat -> option Val -> Body) (fuel : nat) (k : string)
  (d : option Val) (s : St) :
  lmap s !! k = None -> 1 < fuel ->
  lmap (fst (emit_sync beh fuel k d s)) = lmap s /\ calls (fst (emit_sync beh fuel k d s)) = calls s.
Proof.
  intros E Hf. destruct fuel as [|[|f]]; [lia|lia|].
  destruct (emit_sync_unfold beh (S f) k d s) as (s2 & sid & G & Eq & _ & Hc & _ & He).
  rewrite Eq. destruct (deliver_keep (k, d) s) as (Dl & _ & _ & _).
  assert (Hat : listeners_at k s = []) by (unfold listeners_at; rewrite E; reflexivity).
  rewrite Hat in He.
  unfold getListeners in G. rewrite Dl, E in G. injection G as <- <-.
  cbn [dispatch]. rewrite He. cbn. split; [apply delete_insert_id; exact E|exact Hc].
Qed.

(** ** Properties of the registry, the history and the traversals *)

(** X1: the [listeners] map never maps two event names to the same [Set],
    and no [Set] holds the same listener record twice. *)
Theorem listeners_sets_distinct (beh : nat -> option Val -> Body) (fuel : nat) (sched : list Action) :
  let s := exec beh fuel sched init in
  (forall k1 k2 sid, lmap s !! k1 = Some sid -> lmap s !! k2 = Some sid -> k1 = k2) /\
  (forall k, List.NoDup (map l_id (live_of (listeners_at k s)))).
Proof.
  intros s. pose proof (reach_RegWF beh fuel sched) as R. fold s in R. split.
  - exact (rw_inj _ R).
  - intros k. unfold listeners_at. destruct (lmap s !! k) as [sid|].
    + apply RegWF_nodup_entries. exact R.
    + constructor.
Qed.

(** X2: [on(k, f)] and [once(k, f)] append one new record [{fn: f, once}]
    at the end of the [Set] of [k], distinct from every record already
    there (also when [f] is already registered), and leave the listeners of
    every other event as they were. *)
Theorem on_once_append (beh : nat -> option Val -> Body) (fuel : nat) (sched : list Action)
  (k : string) (f : nat) :
  let s := exec beh fuel sched init in
  (exists lid, ~ In lid (map l_id (live_of (listeners_at k s))) /\
     listeners_at k (on k f s) = listeners_at k s ++ [Some (mkListener lid f false)]) /\
  (exists lid, ~ In lid (map l_id (live_of (listeners_at k s))) /\
     listeners_at k (once k f s) = listeners_at k s ++ [Some (mkListener lid f true)]) /\
  (forall k', k' <> k ->
     listeners_at k' (on k f s) = listeners_at k' s /\ listeners_at k' (once k f s) = listeners_at k' s).
Proof.
  intros s. pose proof (reach_RegWF beh fuel sched) as R. fold s in R.
  destruct (add_listener_at k f false s R) as (A1 & B1 & C1).
  destruct (add_listener_at k f true s R) as (A2 & B2 & C2).
  unfold on, once.
  refine (conj (ex_intro _ _ (conj A1 B1)) (conj (ex_intro _ _ (conj A2 B2)) _)).
  intros k' Hne. split; [apply C1|apply C2]; exact Hne.
Qed.

(** X3: [off(k, f)] deletes every record of [k] whose callback is [f]
    (registered with [on] or [once]) and keeps the others in order; it
    removes [k] from the map exactly when no record is left, and leaves the
    listeners of every other event as they were. *)
Theorem off_removes_callback (beh : nat -> option Val -> Body) (fuel : nat) (sched : list Action)
  (k : string) (f : nat) :
  let s := exec beh fuel sched init in
  live_of (listeners_at k (off k f s)) =
    List.filter (fun x => negb (l_fn x =? f)) (live_of (listeners_at k s)) /\
  (lmap (off k f s) !! k = None <->
     List.filter (fun x => negb (l_fn x =? f)) (live_of (listeners_at k s)) = []) /\
  (forall k', k' <> k -> listeners_at k' (off k f s) = listeners_at k' s).
Proof.
  intros s. pose proof (reach_RegWF beh fuel sched) as R. fold s in R.
  exact (off_at k f s R).
Qed.

(** X5: [off(k, f)] undoes [on(k, f)] when [f] was not registered for
    [k]: every event has the same listeners as before. *)
Theorem on_off_round_trip (beh : nat -> option Val -> Body) (fuel : nat) (sched : list Action)
  (k : string) (f : nat) :
  let s := exec beh fuel sched init in
  ~ In f (map l_fn (live_of (listeners_at k s))) ->
  forall k', live_of (listeners_at k' (off k f (on k f s))) = live_of (listeners_at k' s).
Proof.
  intros s Hf k'. pose proof (reach_RegWF beh fuel sched) as R. fold s in R.
  pose proof (add_listener_RegWF k f false s R) as R1.
  destruct (add_listener_at k f false s R) as (_ & B & C).
  destruct (off_at k f (on k f s) R1) as (D & _ & F).
  destruct (decide (k' = k)) as [->|Hne].
  - rewrite D. unfold on. rewrite B, live_of_app, List.filter_app. simpl.
    rewrite Nat.eqb_refl. simpl. rewrite app_nil_r.
    apply List.forallb_filter_id. apply forallb_forall. intros x Hx.
    destruct (Nat.eqb_spec (l_fn x) f) as [<-|]; [|reflexivity].
    exfalso. apply Hf. apply in_map. exact Hx.
  - rewrite (F k' Hne). unfold on. rewrite (C k' Hne). reflexivity.
Qed.


(** X8: [emit(k, d)] appends [[k, d]] to the event history before any
    listener runs: whatever the listeners emit in turn comes after it. *)
Theorem emit_records_first (beh : nat -> option Val -> Body) (fuel : nat) (k : string)
  (d : option Val) (s : St) :
  0 < fuel -> exists h, history (fst (emit_sync beh fuel k d s)) = history s ++ (k, d) :: h.
Proof.
  intros Hf. destruct (emit_history beh fuel k d s) as (h & H & Hh).
  destruct (Hh Hf) as (h' & ->). exists h'. exact H.
Qed.

(** X9: the event history is append-only: along any run the earlier
    history is a prefix of the later one, and every operation but [emit]
    leaves it unchanged. *)
Theorem history_append_only (beh : nat -> option Val -> Body) (fuel : nat) (sched : list Action) (s : St) :
  history s `prefix_of` history (exec beh fuel sched s) /\
  (forall a, (forall k d, a <> AEmit k d) -> history (step beh fuel a s) = history s).
Proof.
  split; [apply exec_history|]. intros a Ha. apply step_history. exact Ha.
Qed.

(** X10: [return(v)] removes the traversal from [iterators] and completes
    a pending [next] with [{ value: v, done: true }]; from then on nothing
    but a further [next] of that traversal touches it: its queue stays as
    it was and no emission reaches it. *)
Theorem return_detaches (beh : nat -> option Val -> Body) (fuel0 : nat) (sched0 : list Action)
  (i : nat) (v : option Val) (it : Iter) :
  let s := exec beh fuel0 sched0 init in
  iters s !! i = Some it ->
  let s1 := return_op i v s in
  ~ In i (active s1) /\ iters s1 !! i = Some (mkIter (it_queue it) None) /\
  (forall r, it_next it = Some r -> In (JSettle r (RDone v)) (jobs s1)) /\
  (forall fuel sched, (forall a, In a sched -> a <> ANext i) ->
     ~ In i (active (exec beh fuel sched s1)) /\
     iters (exec beh fuel sched s1) !! i = iters s1 !! i).
Proof.
  intros s E s1.
  assert (Hb : iters_below s)
    by (apply exec_below; intros j it' Hj; cbn in Hj; rewrite lookup_empty in Hj; discriminate).
  pose proof (Hb _ _ E) as Hi.
  destruct (return_op_detaches i v s it E) as (A & B & C & D). fold s1 in A, B, C, D.
  assert (Hi1 : i < fresh s1)
    by (unfold s1; rewrite (proj2 (proj2 (proj2 (return_op_detaches i v s it E)))); exact Hi).
  refine (conj A (conj B (conj C _))).
  intros fuel sched Ha.
  destruct (exec_detached beh fuel sched s1 i (it_queue it) Ha (conj B (conj A Hi1)))
    as (B' & A' & _).
  split; [exact A'|]. rewrite B', B. reflexivity.
Qed.

(** X11: the instance's own promise and [endPromise] settle once: after
    either has settled, no later operation changes its outcome. *)
Theorem settlement_final (beh : nat -> option Val -> Body) (fuel : nat) (sched : list Action) (s : St) :
  (native s <> Pending -> native (exec beh fuel sched s) = native s) /\
  (forall x, endP s = Some x -> endP (exec beh fuel sched s) = Some x).
Proof. apply exec_settled. Qed.

Lemma off_unregistered_keeps_map_witness :
  lmap (exec quiet 1 on_run init) !! "b"%string = None /\
  lmap (off "b" 1 (exec quiet 1 on_run init)) = lmap (exec quiet 1 on_run init).
Proof.
  assert (H : lmap (exec quiet 1 on_run init) !! "b"%string = None) by (vm_compute; reflexivity).
  split; [exact H|exact (off_unregistered_keeps_map "b" 1 _ H)].
Defined.

Lemma on_off_round_trip_witness :
  ~ In 1 (map l_fn (live_of (listeners_at "a" (exec quiet 1 on_run init)))) /\
  forall k', live_of (listeners_at k' (off "a" 1 (on "a" 1 (exec quiet 1 on_run init)))) =
             live_of (listeners_at k' (exec quiet 1 on_run init)).
Proof.
  assert (H : ~ In 1 (map l_fn (live_of (listeners_at "a" (exec quiet 1 on_run init)))))
    by (vm_compute; intros [Hc|[]]; discriminate).
  split; [exact H|exact (on_off_round_trip quiet 1 on_run "a" 1 H)].
Defined.

Lemma emit_updates_registry_witness :
  let s := exec quiet 1 once_on_run init in
  (forall l, In l (live_of (listeners_at "a" s)) -> b_cmds (quiet (l_fn l) None) = []) /\
  length (listeners_at "a" s) + 1 < 5 /\
  live_of (listeners_at "a" (fst (emit_sync quiet 5 "a" None s))) =
    kept quiet None (live_of (listeners_at "a" s)) /\
  (lmap (fst (emit_sync quiet 5 "a" None s)) !! "a"%string = None <->
     kept quiet None (live_of (listeners_at "a" s)) = []) /\
  (forall k', k' <> "a"%string ->
     listeners_at k' (fst (emit_sync quiet 5 "a" None s)) = listeners_at k' s).
Proof.
  intros s.
  assert (H1 : forall l, In l (live_of (listeners_at "a" s)) -> b_cmds (quiet (l_fn l) None) = [])
    by (intros; reflexivity).
  assert (H2 : length (listeners_at "a" s) + 1 < 5) by (apply Nat.ltb_lt; vm_compute; reflexivity).
  exact (conj H1 (conj H2 (emit_updates_registry quiet 1 once_on_run 5 "a" None H1 H2))).
Defined.

Lemma emit_unregistered_keeps_map_witness :
  lmap (exec quiet 1 on_run init) !! "b"%string = None /\ 1 < 2 /\
  lmap (fst (emit_sync quiet 2 "b" None (exec quiet 1 on_run init))) = lmap (exec quiet 1 on_run init) /\
  calls (fst (emit_sync quiet 2 "b" None (exec quiet 1 on_run init))) = calls (exec quiet 1 on_run init).
Proof.
  assert (H : lmap (exec quiet 1 on_run init) !! "b"%string = None) by (vm_compute; reflexivity).
  assert (Hf : 1 < 2) by lia.
  exact (conj H (conj Hf (emit_unregistered_keeps_map quiet 2 "b" None _ H Hf))).
Defined.

Lemma emit_records_first_witness :
  0 < 1 /\ exists h, history (fst (emit_sync quiet 1 "a" None init)) = history init ++ ("a"%string, None) :: h.
Proof.
  assert (Hf : 0 < 1) by lia.
  exact (conj Hf (emit_records_first quiet 1 "a" None init Hf)).
Defined.

Lemma return_detaches_witness :
  let s := exec quiet 1 create_run init in
  iters s !! 0 = Some (mkIter [] None) /\
  ~ In 0 (active (return_op 0 None s)) /\
  iters (return_op 0 None s) !! 0 = Some (mkIter [] None) /\
  (forall r, it_next (mkIter [] None) = Some r -> In (JSettle r (RDone None)) (jobs (return_op 0 None s))) /\
  (forall fuel sched, (forall a, In a sched -> a <> ANext 0) ->
     ~ In 0 (active (exec quiet fuel sched (return_op 0 None s))) /\
     iters (exec quiet fuel sched (return_op 0 None s)) !! 0 = iters (return_op 0 None s) !! 0).
Proof.
  intros s.
  assert (H : iters s !! 0 = Some (mkIter [] None)) by (vm_compute; reflexivity).
  exact (conj H (return_detaches quiet 1 create_run 0 None (mkIter [] None) H)).
Defined.

(** ** C2: closing with a value, and the runs that follow *)


















